(** * Failed-operation visibility: progress service, retry hook and
    failed-operations view of the Archon UI, with the server-side
    registry they talk to.

    The development follows the layout of the sources:
    - [features/progress/types]: the records exchanged with the API;
    - [features/progress/services/progressService.ts]:
      [listFailedOperations];
    - [features/progress/components/FailedOperationsSection.tsx]:
      [toggleExpanded], the confirm-remove modal and the rendering of the
      expanded details;
    - [features/knowledge/hooks/useRetryKnowledgeSource.ts]: the retry
      mutation ([mutationFn], [onSuccess], [onError]);
    - the operation registry and its cleanup scheduler, which live in the
      Python backend. *)

From Stdlib Require Import ZArith.
From stdpp Require Import gmap strings pretty list fin_maps.

#[local] Open Scope string_scope.
#[local] Open Scope list_scope.
#[local] Open Scope nat_scope.

(** ** The exchanged records ([features/progress/types]) *)

(** [original_request?: { url: string; max_depth?: number;
    max_concurrent?: number; tags?: string[] }], as
    [PRPs/fix-error-operation-visibility.md] declares it and as the
    backend stores it.  The numbers are only ever copied, so an integer
    stands for them. *)
Module OriginalRequest.
Record t : Type := mk {
  url : string;
  max_depth : option Z;
  max_concurrent : option Z;
  tags : option (list string)
}.
End OriginalRequest.

(** An element of [op.logs]: either a plain string or an object
    [{ timestamp: string; message: string }]. *)
Inductive LogItem : Type :=
| LogString (s : string)
| LogObject (timestamp message : string).

(** [FailedOperation], restricted to the fields the sources read.  The
    status is kept as the string the API delivers: the TypeScript
    declaration narrows it to ["error" | "failed"], but the same record
    type is used for the unfiltered answer of the list endpoint. *)
Module Op.
Record t : Type := mk {
  progressId : string;
  status : string;
  url : option string;
  currentUrl : option string;
  error : string;
  error_time : option string;
  logs : option (list LogItem);
  original_request : option OriginalRequest.t
}.
End Op.

Abbreviation FailedOperation := Op.t.

(** [FailedOperationsResponse]. *)
Record FailedOperationsResponse : Type := mkResponse {
  operations : list FailedOperation;
  count : nat;
  timestamp : string
}.

(** A thrown value: an [Error] with its message, or anything else. *)
Inductive Thrown : Type :=
| JsError (message : string)
| NotAnError.

(** Outcome of an awaited promise: the value it resolved to, or what it
    was rejected with. *)
Inductive Promise (A : Type) : Type :=
| Resolved (a : A)
| Rejected (reason : Thrown).
Arguments Resolved {A} a.
Arguments Rejected {A} reason.

Definition then_ {A B : Type} (p : Promise A) (k : A -> Promise B) : Promise B :=
  match p with
  | Resolved a => k a
  | Rejected e => Rejected e
  end.

(** ** [progressService.listFailedOperations] *)

Module progressService.

(** [(op) => op.status === "error" || op.status === "failed"] *)
Definition isErrorOrFailed (op : FailedOperation) : bool :=
  String.eqb (Op.status op) "error" || String.eqb (Op.status op) "failed".

(** The body of [listFailedOperations] after the [await]; [response]
    is what [callAPIWithETag("/api/progress/?include_failed=true")]
    resolved to. *)
Definition failedOperationsOf (response : FailedOperationsResponse)
  : FailedOperationsResponse :=
  let failedOperations := List.filter isErrorOrFailed (operations response) in
  {| operations := failedOperations;
     count := length failedOperations;
     timestamp := timestamp response |}.

(** [listFailedOperations]: a rejected request propagates. *)
Definition listFailedOperations (fetched : Promise FailedOperationsResponse)
  : Promise FailedOperationsResponse :=
  then_ fetched (fun response => Resolved (failedOperationsOf response)).

End progressService.

(** ** [FailedOperationsSection] *)

Module FailedOperationsSection.

(** The two [useState] cells of the component. *)
Record State : Type := mkState {
  expandedOps : gset string;
  confirmRemove : option FailedOperation
}.

(** [useState(new Set())], [useState(null)]. *)
Definition initial : State :=
  {| expandedOps := ∅; confirmRemove := None |}.

(** The updater passed to [setExpandedOps]: copy [prev], then delete
    [progressId] when the copy has it and add it otherwise. *)
Definition toggleExpanded (progressId : string) (prev : gset string) : gset string :=
  let next := prev in
  if decide (progressId ∈ next) then next ∖ {[progressId]} else next ∪ {[progressId]}.

(** What the handlers hand to the two mutation hooks. *)
Inductive Command : Type :=
| RetryMutate (failedOp : FailedOperation)
| RemoveMutate (progressId : string).

(** The handlers of the JSX: the three buttons of a card and the two
    callbacks of the confirmation modal. *)
Inductive Click : Type :=
| ClickToggle (op : FailedOperation)
| ClickRetry (op : FailedOperation)
| ClickRemove (op : FailedOperation)
| ModalConfirm
| ModalCancel.

(** One handler run.  [isPending] is [retryMutation.isPending]: the Retry
    button is disabled while it holds.  The modal exists only while
    [confirmRemove] is set, so its callbacks do nothing otherwise. *)
Definition handle (isPending : bool) (st : State) (c : Click) : State * list Command :=
  match c with
  | ClickToggle op =>
      ({| expandedOps := toggleExpanded (Op.progressId op) (expandedOps st);
          confirmRemove := confirmRemove st |}, [])
  | ClickRetry op =>
      (st, if isPending then [] else [RetryMutate op])
  | ClickRemove op =>
      ({| expandedOps := expandedOps st; confirmRemove := Some op |}, [])
  | ModalConfirm =>
      match confirmRemove st with
      | Some op =>
          ({| expandedOps := expandedOps st; confirmRemove := None |},
           [RemoveMutate (Op.progressId op)])
      | None => (st, [])
      end
  | ModalCancel =>
      ({| expandedOps := expandedOps st; confirmRemove := None |}, [])
  end.

(** A session of handler runs, each with the pending flag it saw; the
    commands are collected in the order they were issued. *)
Fixpoint run (st : State) (cs : list (bool * Click)) : State * list Command :=
  match cs with
  | [] => (st, [])
  | (isPending, c) :: cs' =>
      let '(st1, out1) := handle isPending st c in
      let '(st2, out2) := run st1 cs' in
      (st2, out1 ++ out2)
  end.

(** [a || b] on optional strings: the first operand unless it is absent
    or empty. *)
Definition or_else (a : option string) (b : string) : string :=
  match a with
  | Some s => if String.eqb s "" then b else s
  | None => b
  end.

(** [logs.slice(-10)]: the last ten elements, all of them when there are
    fewer. *)
Definition slice_last10 (logs : list LogItem) : list LogItem :=
  drop (length logs - 10) logs.

(** [typeof log !== "string"], with the narrowing to the object shape. *)
Definition logObject (log : LogItem) : option (string * string) :=
  match log with
  | LogString _ => None
  | LogObject timestamp message => Some (timestamp, message)
  end.

(** The [div]s under "Crawl Logs:", one per kept element, as
    (timestamp, message); the time is shown through [toLocaleTimeString],
    which is left to the presentation. *)
Definition logLines (logs : list LogItem) : list (string * string) :=
  omap logObject (slice_last10 logs).

(** [op.logs && op.logs.length > 0 && (...)]: the logs block, when it is
    rendered. *)
Definition crawlLogs (op : FailedOperation) : option (list (string * string)) :=
  match Op.logs op with
  | Some logs => if Nat.ltb 0 (length logs) then Some (logLines logs) else None
  | None => None
  end.

(** Expanded details of a card. *)
Record Details : Type := mkDetails {
  fullError : string;
  logsBlock : option (list (string * string))
}.

(** One card of the list; the failure time is kept as delivered, its
    [toLocaleString] form being left to the presentation. *)
Record Card : Type := mkCard {
  key : string;
  title : string;
  failedAt : string;
  preview : string;
  chevronUp : bool;
  retryDisabled : bool;
  details : option Details
}.

Definition card (isPending : bool) (st : State) (op : FailedOperation) : Card :=
  let expanded := bool_decide (Op.progressId op ∈ expandedOps st) in
  {| key := Op.progressId op;
     title := or_else (Op.url op) (or_else (Op.currentUrl op) "Unknown URL");
     failedAt := or_else (Op.error_time op) "recently";
     preview := or_else (Some (Op.error op)) "Unknown error";
     chevronUp := expanded;
     retryDisabled := isPending;
     details :=
       if expanded
       then Some {| fullError := Op.error op; logsBlock := crawlLogs op |}
       else None |}.

(** What the component returns. *)
Inductive View : Type :=
| LoadingText
| Null
| Section_ (badge : nat) (cards : list Card) (modalItemName : option string).

(** The body of the component below the hooks: [failedOps] and
    [isLoading] come from [useFailedOperations]. *)
Definition render (failedOps : option FailedOperationsResponse) (isLoading : bool)
    (isPending : bool) (st : State) : View :=
  if isLoading then LoadingText
  else match failedOps with
       | None => Null
       | Some data =>
           if Nat.eqb (length (operations data)) 0 then Null
           else Section_ (count data)
                  (card isPending st <$> operations data)
                  ((fun op => or_else (Op.url op) "this operation") <$> confirmRemove st)
       end.


End FailedOperationsSection.

(** ** The operation registry of the backend

    The Python modules that hold the registry ([progress_tracker.py],
    [progress_api.py]) are not among the sources at hand; this module
    follows the design document (sections 3, 4.1 to 4.4 and 6).  Time is a
    logical clock counting time-units. *)

Module Registry.

(** Modelled from the spec: the states of the state machine (4.2); the
    backend module defining them is missing. *)
Inductive Status : Type :=
| Queued | Starting | Analyzing | Processing
| Completed | Error | Failed | Cancelled.

(** Modelled from the spec: the name under which a status travels to the
    observer. *)
Definition status_name (s : Status) : string :=
  match s with
  | Queued => "queued" | Starting => "starting" | Analyzing => "analyzing"
  | Processing => "processing" | Completed => "completed" | Error => "error"
  | Failed => "failed" | Cancelled => "cancelled"
  end.

(** Modelled from the spec: the failure class [{error, failed}]. *)
Definition is_failure (s : Status) : bool :=
  match s with Error | Failed => true | _ => false end.

(** Modelled from the spec: the benign-terminal class
    [{completed, cancelled}]. *)
Definition is_benign (s : Status) : bool :=
  match s with Completed | Cancelled => true | _ => false end.

(** Modelled from the spec: the terminal states. *)
Definition is_terminal (s : Status) : bool := is_failure s || is_benign s.

(** Modelled from the spec: the allowed edges of 4.2. *)
Definition edge (from to : Status) : bool :=
  match from, to with
  | Queued, Starting => true
  | Starting, (Analyzing | Processing | Error | Failed | Cancelled) => true
  | Analyzing, (Processing | Completed | Error | Failed | Cancelled) => true
  | Processing, (Completed | Error | Failed | Cancelled) => true
  | _, _ => false
  end.

(** Modelled from the spec: the closed enumeration of job kinds, with its
    one ingestion job. *)
Inductive OpType : Type := IngestionCrawl.

(** Modelled from the spec: the Operation entity of section 3. *)
Record Operation : Type := mkOperation {
  id : string;
  type : OpType;
  status : Status;
  progress_percent : nat;
  current_step : string;
  log : list (nat * string);
  error_message : option string;
  error_time : option nat;
  original_request : OriginalRequest.t;
  created_at : nat;
  last_updated_at : nat
}.

(** Modelled from the spec: the two configurable retention windows (4.3). *)
Record Config : Type := mkConfig {
  failure_retention : nat;
  benign_retention : nat
}.

(** Modelled from the spec: the defaults, 300 and 30 time-units. *)
Definition default_config : Config :=
  {| failure_retention := 300; benign_retention := 30 |}.

(** Modelled from the spec: the window selected by class on a terminal
    transition. *)
Definition retention (c : Config) (s : Status) : nat :=
  if is_failure s then failure_retention c else benign_retention c.

(** Modelled from the spec: the registry, a keyed store of records, with
    the scheduler's pending evictions (id to due time) and the number of
    ids issued so far. *)
Record t : Type := mk {
  records : gmap string Operation;
  evictions : gmap string nat;
  issued : nat;
  config : Config
}.

(** Modelled from the spec: the registry at process start. *)
Definition empty (c : Config) : t :=
  {| records := ∅; evictions := ∅; issued := 0; config := c |}.

(** Modelled from the spec: the error taxonomy of section 7, as far as the
    registry raises it. *)
Inductive Failure : Type := NotFound | UnknownOperation | InvalidTransition.

(** Modelled from the spec: the outcome of a registry operation. *)
Inductive Result (A : Type) : Type :=
| Ok (a : A)
| Fail (e : Failure).
Arguments Ok {A} a.
Arguments Fail {A} e.

(** Modelled from the spec: the id given to the [n]-th created operation;
    ids are never reused. *)
Definition fresh_id (n : nat) : string := pretty n.

(** Modelled from the spec: Cleanup Scheduler, [schedule(id, delay)] called
    at time [now]. *)
Definition schedule (now : nat) (i : string) (delay : nat) (r : t) : t :=
  {| records := records r; evictions := <[i := now + delay]> (evictions r);
     issued := issued r; config := config r |}.

(** Modelled from the spec: Cleanup Scheduler, [cancel(id)], a no-op when
    nothing is pending. *)
Definition cancel (i : string) (r : t) : t :=
  {| records := records r; evictions := delete i (evictions r);
     issued := issued r; config := config r |}.

(** Modelled from the spec: the ids whose delay has elapsed at [now]. *)
Definition due (now : nat) (r : t) : gset string :=
  dom (filter (λ kv : string * nat, kv.2 ≤ now) (evictions r)).

(** Modelled from the spec: the registry once every eviction due at [now]
    has run; each one removes its record and is then no longer pending. *)
Definition elapse (now : nat) (r : t) : t :=
  {| records := filter (λ kv : string * Operation, kv.1 ∉ due now r) (records r);
     evictions := filter (λ kv : string * nat, now < kv.2) (evictions r);
     issued := issued r; config := config r |}.

(** Modelled from the spec: [create(type, original_request) -> id]. *)
Definition create (now : nat) (ty : OpType) (req : OriginalRequest.t) (r0 : t)
    : string * t :=
  let r := elapse now r0 in
  let i := fresh_id (issued r) in
  let op := {| id := i; type := ty; status := Queued; progress_percent := 0;
               current_step := ""; log := []; error_message := None;
               error_time := None; original_request := req;
               created_at := now; last_updated_at := now |} in
  (i, {| records := <[i := op]> (records r); evictions := evictions r;
         issued := S (issued r); config := config r |}).

(** Modelled from the spec: [get(id) -> Operation | NotFound]. *)
Definition get (now : nat) (i : string) (r : t) : Result Operation :=
  match records (elapse now r) !! i with
  | Some op => Ok op
  | None => Fail NotFound
  end.

(** Modelled from the spec: [list(predicate)], a snapshot of the matching
    records. *)
Definition list_ (now : nat) (p : Operation -> bool) (r : t) : list Operation :=
  List.filter p (map_to_list (records (elapse now r))).*2.

(** Modelled from the spec: Polling Gateway, [list_active()]. *)
Definition list_active (now : nat) (r : t) : list Operation :=
  list_ now (λ op, negb (is_terminal (status op))) r.

(** Modelled from the spec: Polling Gateway, [list_failed()]. *)
Definition list_failed (now : nat) (r : t) : list Operation :=
  list_ now (λ op, is_failure (status op)) r.

(** Modelled from the spec: the observer-facing
    [GET list(include_failed)]. *)
Definition list_include (now : nat) (include_failed : bool) (r : t) : list Operation :=
  list_ now (λ op, negb (is_terminal (status op))
                   || (include_failed && is_failure (status op))) r.

(** Modelled from the spec: [remove(id) -> ok]; the record goes and a
    pending eviction for it is cancelled. *)
Definition remove (now : nat) (i : string) (r0 : t) : Result unit * t :=
  let r := elapse now r0 in
  (Ok tt, cancel i {| records := delete i (records r); evictions := evictions r;
                      issued := issued r; config := config r |}).

(** Modelled from the spec: [update(id, progress_percent?, current_step?,
    log_append?)]; the percentage stays within 0 to 100 and never
    decreases. *)
Definition update (now : nat) (i : string) (progress : option nat)
    (step : option string) (log_append : option string) (r0 : t) : Result unit * t :=
  let r := elapse now r0 in
  match records r !! i with
  | None => (Fail UnknownOperation, r)
  | Some op =>
      if is_terminal (status op) then (Fail InvalidTransition, r)
      else
        let op' :=
          {| id := id op; type := type op; status := status op;
             progress_percent :=
               match progress with
               | Some p => Nat.max (progress_percent op) (Nat.min 100 p)
               | None => progress_percent op
               end;
             current_step := default (current_step op) step;
             log := match log_append with
                    | Some m => log op ++ [(now, m)]
                    | None => log op
                    end;
             error_message := error_message op; error_time := error_time op;
             original_request := original_request op;
             created_at := created_at op; last_updated_at := now |} in
        (Ok tt, {| records := <[i := op']> (records r); evictions := evictions r;
                   issued := issued r; config := config r |})
  end.

(** Modelled from the spec: a status change along an edge of 4.2; entering
    a terminal state records message and time for the failure class and
    schedules the eviction with the window of the class. *)
Definition transition (now : nat) (i : string) (target : Status)
    (message : option string) (r0 : t) : Result unit * t :=
  let r := elapse now r0 in
  match records r !! i with
  | None => (Fail UnknownOperation, r)
  | Some op =>
      if edge (status op) target then
        let op' :=
          {| id := id op; type := type op; status := target;
             progress_percent := progress_percent op;
             current_step := current_step op; log := log op;
             error_message := if is_failure target then message else error_message op;
             error_time := if is_failure target then Some now else error_time op;
             original_request := original_request op;
             created_at := created_at op; last_updated_at := now |} in
        let r' := {| records := <[i := op']> (records r); evictions := evictions r;
                     issued := issued r; config := config r |} in
        (Ok tt, if is_terminal target
                then schedule now i (retention (config r) target) r'
                else r')
      else (Fail InvalidTransition, r)
  end.

(** Modelled from the spec: the four terminal transitions of 4.1. *)
Definition transition_error (now : nat) (i message : string) (r : t) :=
  transition now i Error (Some message) r.

(** Modelled from the spec: see [transition_error]. *)
Definition transition_failed (now : nat) (i message : string) (r : t) :=
  transition now i Failed (Some message) r.

(** Modelled from the spec: see [transition_error]. *)
Definition transition_completed (now : nat) (i : string) (r : t) :=
  transition now i Completed None r.

(** Modelled from the spec: see [transition_error]. *)
Definition transition_cancelled (now : nat) (i : string) (r : t) :=
  transition now i Cancelled None r.

(** Modelled from the spec: the calls that change the registry, as the
    job's callbacks and the observers issue them. *)
Inductive Call : Type :=
| CCreate (ty : OpType) (req : OriginalRequest.t)
| CUpdate (i : string) (progress : option nat) (step log_append : option string)
| CTransition (i : string) (target : Status) (message : option string)
| CRemove (i : string).

(** Modelled from the spec: one call at time [now]. *)
Definition step (r : t) (c : nat * Call) : t :=
  match c with
  | (now, CCreate ty req) => (create now ty req r).2
  | (now, CUpdate i p s l) => (update now i p s l r).2
  | (now, CTransition i target m) => (transition now i target m r).2
  | (now, CRemove i) => (remove now i r).2
  end.

(** Modelled from the spec: a history of timed calls. *)
Definition steps (r : t) (cs : list (nat * Call)) : t := foldl step r cs.

(** Modelled from the spec: the state invariant of section 3: a record
    sits under its own id, ids are the issued ones, every terminal record
    has its eviction pending at the time of its terminal transition plus
    the window of its class, and only terminal records have one. *)
Definition wf (r : t) : Prop :=
  (∀ i op, records r !! i = Some op →
     id op = i ∧ (∃ n, n < issued r ∧ i = fresh_id n) ∧
     (is_terminal (status op) = true →
        evictions r !! i = Some (last_updated_at op + retention (config r) (status op)))) ∧
  (∀ i d, evictions r !! i = Some d →
     ∃ op, records r !! i = Some op ∧ is_terminal (status op) = true).

End Registry.

(** ** The observer's side: requests, query cache and the retry hook *)

(** The argument of [knowledgeService.crawlUrl], with the keys the retry
    hook sets. *)
Module CrawlRequest.
Record t : Type := mk {
  url : string;
  max_depth : option Z;
  tags : option (list string)
}.
End CrawlRequest.

(** What [crawlUrl] resolves to; the hook ignores it. *)
Record CrawlStartResponse : Type := mkCrawlStart {
  progressId : string
}.

(** The requests the observer can put on the wire: the two polls of
    [progressService], the crawl submission, and the removal the design
    document exposes as [DELETE remove(id)]. *)
Inductive ApiCall : Type :=
| GetProgress (progressId : string)
| GetList (include_failed : bool)
| PostCrawl (request : CrawlRequest.t)
| DeleteOperation (progressId : string).

(** The keys made by the [progressKeys] factory: [detail(id)], [failed()]
    and [active()]; distinct calls give distinct keys. *)
Inductive QueryKey : Type :=
| KeyDetail (progressId : string)
| KeyFailed
| KeyActive.

#[global] Instance QueryKey_eq_dec : EqDecision QueryKey.
Proof. solve_decision. Defined.

#[global] Instance QueryKey_countable : Countable QueryKey.
Proof.
  refine (inj_countable'
            (λ k, match k with
                  | KeyDetail i => inl i
                  | KeyFailed => inr true
                  | KeyActive => inr false
                  end)
            (λ x : string + bool,
               match x with
               | inl i => KeyDetail i
               | inr true => KeyFailed
               | inr false => KeyActive
               end) _).
  by intros [].
Defined.

(** What a query holds. *)
Inductive QueryData : Type :=
| DetailData (op : FailedOperation)
| ListData (response : FailedOperationsResponse).

(** The query client, as far as the hook drives it: the cached queries
    and the keys marked for refetch. *)
Record QueryClient : Type := mkQueryClient {
  queries : gmap QueryKey QueryData;
  invalidated : gset QueryKey
}.

(** [queryClient.removeQueries({ queryKey, exact: true })]. *)
Definition removeQueries (queryKey : QueryKey) (qc : QueryClient) : QueryClient :=
  {| queries := delete queryKey (queries qc);
     invalidated := invalidated qc ∖ {[queryKey]} |}.

(** [queryClient.invalidateQueries({ queryKey })]: the key is marked for
    refetch.  The refetch that follows for a mounted query is a poll of
    its own and is not recorded among the requests of the mutation. *)
Definition invalidateQueries (queryKey : QueryKey) (qc : QueryClient) : QueryClient :=
  {| queries := queries qc; invalidated := invalidated qc ∪ {[queryKey]} |}.

(** Everything a mutation can touch: the backend (its registry, its
    validation of crawl requests and its clock), the requests sent so far,
    the query cache and the toasts shown. *)
Record World : Type := mkWorld {
  registry : Registry.t;
  accepts : CrawlRequest.t -> bool;
  clock : nat;
  sent : list ApiCall;
  queryClient : QueryClient;
  toasts : list (string * string)
}.

(** An asynchronous computation over the world. *)
Definition Async (A : Type) : Type := World -> Promise A * World.

Definition throw {A : Type} (e : Thrown) : Async A := fun w => (Rejected e, w).

Definition showToast (message kind : string) (w : World) : World :=
  {| registry := registry w; accepts := accepts w; clock := clock w;
     sent := sent w; queryClient := queryClient w;
     toasts := toasts w ++ [(message, kind)] |}.

Definition withQueryClient (f : QueryClient -> QueryClient) (w : World) : World :=
  {| registry := registry w; accepts := accepts w; clock := clock w;
     sent := sent w; queryClient := f (queryClient w); toasts := toasts w |}.

Module knowledgeService.

(** Modelled from the spec: the parameters the backend keeps of a crawl
    request as the operation's [original_request]; a key the request does
    not carry is absent.  The crawling service is missing. *)
Definition snapshot (request : CrawlRequest.t) : OriginalRequest.t :=
  {| OriginalRequest.url := CrawlRequest.url request;
     OriginalRequest.max_depth := CrawlRequest.max_depth request;
     OriginalRequest.max_concurrent := None;
     OriginalRequest.tags := CrawlRequest.tags request |}.

(** Modelled from the spec: [knowledgeService.crawlUrl] with the
    job-submission collaborator behind it ([submit(type, request_params)
    -> id]); both are missing.  The request goes on the wire; a request
    the backend finds malformed is rejected before any operation is
    created, any other creates one operation in the registry. *)
Definition crawlUrl (request : CrawlRequest.t) : Async CrawlStartResponse :=
  fun w =>
    let wire := sent w ++ [PostCrawl request] in
    if accepts w request then
      let '(i, reg) := Registry.create (clock w) Registry.IngestionCrawl
                         (snapshot request) (registry w) in
      (Resolved {| progressId := i |},
       {| registry := reg; accepts := accepts w; clock := clock w; sent := wire;
          queryClient := queryClient w; toasts := toasts w |})
    else
      (Rejected (JsError "ValidationError"),
       {| registry := registry w; accepts := accepts w; clock := clock w;
          sent := wire; queryClient := queryClient w; toasts := toasts w |}).

End knowledgeService.

Module useRetryKnowledgeSource.

(** The message of the error thrown by the guard of [mutationFn]. *)
Definition MissingOriginalRequest : string :=
  "Cannot retry: Original request data missing".

(** [mutationFn]: the guard [!failedOp.original_request?.url] holds when
    the request is absent or its url is empty; otherwise the crawl
    endpoint is called with [url], [max_depth] and [tags] of the original
    request. *)
Definition mutationFn (failedOp : FailedOperation) : Async CrawlStartResponse :=
  match Op.original_request failedOp with
  | None => throw (JsError MissingOriginalRequest)
  | Some original =>
      if String.eqb (OriginalRequest.url original) ""
      then throw (JsError MissingOriginalRequest)
      else knowledgeService.crawlUrl
             {| CrawlRequest.url := OriginalRequest.url original;
                CrawlRequest.max_depth := OriginalRequest.max_depth original;
                CrawlRequest.tags := OriginalRequest.tags original |}
  end.

(** [onSuccess]: a toast, the detail query of the failed operation
    removed, both lists invalidated. *)
Definition onSuccess (_data : CrawlStartResponse) (failedOp : FailedOperation)
    (w : World) : World :=
  let w1 := showToast
              ("Crawl restarted for " +:+
               match Op.original_request failedOp with
               | Some original => OriginalRequest.url original
               | None => "undefined"
               end)
              "success" w in
  let w2 := withQueryClient (removeQueries (KeyDetail (Op.progressId failedOp))) w1 in
  let w3 := withQueryClient (invalidateQueries KeyFailed) w2 in
  withQueryClient (invalidateQueries KeyActive) w3.

(** [onError]: a toast with the error's message. *)
Definition onError (error : Thrown) (w : World) : World :=
  showToast
    match error with
    | JsError message => message
    | NotAnError => "Could not restart crawl"
    end
    "error" w.

(** [retryMutation.mutate(op)]: [useMutation] runs [mutationFn] and then
    the callback that matches its outcome. *)
Definition mutate (failedOp : FailedOperation) (w : World) : World :=
  match mutationFn failedOp w with
  | (Resolved data, w') => onSuccess data failedOp w'
  | (Rejected error, w') => onError error w'
  end.

End useRetryKnowledgeSource.

(** ** Status classes, on the names the observer sees *)

Definition failure_class (s : string) : Prop := s = "error" ∨ s = "failed".

Definition benign_terminal (s : string) : Prop := s = "completed" ∨ s = "cancelled".

Definition terminal (s : string) : Prop := failure_class s ∨ benign_terminal s.

(** ** Vocabulary of the statements *)

(** The guard of [mutationFn] fires: no original request, or an empty url. *)
Definition request_missing (failedOp : FailedOperation) : Prop :=
  match Op.original_request failedOp with
  | None => True
  | Some original => OriginalRequest.url original = ""
  end.

(** The crawl request [mutationFn] builds from an original request. *)
Definition retry_request (original : OriginalRequest.t) : CrawlRequest.t :=
  {| CrawlRequest.url := OriginalRequest.url original;
     CrawlRequest.max_depth := OriginalRequest.max_depth original;
     CrawlRequest.tags := OriginalRequest.tags original |}.

(** The same record under another status. *)
Definition with_status (s : string) (op : FailedOperation) : FailedOperation :=
  {| Op.progressId := Op.progressId op; Op.status := s; Op.url := Op.url op;
     Op.currentUrl := Op.currentUrl op; Op.error := Op.error op;
     Op.error_time := Op.error_time op; Op.logs := Op.logs op;
     Op.original_request := Op.original_request op |}.

(** A world around a registry, with nothing sent, cached or shown yet. *)
Definition world_of (reg : Registry.t) (now : nat) : World :=
  {| registry := reg; accepts := λ _, true; clock := now; sent := [];
     queryClient := {| queries := ∅; invalidated := ∅ |}; toasts := [] |}.

(** Scenario A of the design document, with a request that also sets
    [max_concurrent]: an ingestion created at time 0, started at 1, in
    error at 10. *)
Definition scenario_request : OriginalRequest.t :=
  {| OriginalRequest.url := "https://x"; OriginalRequest.max_depth := Some 2%Z;
     OriginalRequest.max_concurrent := Some 5%Z; OriginalRequest.tags := Some ["docs"] |}.

Definition scenario_registry : Registry.t :=
  let r0 := Registry.empty Registry.default_config in
  let r1 := (Registry.create 0 Registry.IngestionCrawl scenario_request r0).2 in
  let r2 := (Registry.transition 1 "0" Registry.Starting None r1).2 in
  (Registry.transition_error 10 "0" "memory usage exceeded" r2).2.

(** The failed operation as the observer holds it. *)
Definition scenario_failedOp : FailedOperation :=
  {| Op.progressId := "0"; Op.status := "error"; Op.url := Some "https://x";
     Op.currentUrl := None; Op.error := "memory usage exceeded";
     Op.error_time := Some "10"; Op.logs := None;
     Op.original_request := Some scenario_request |}.

(** ** The list endpoint and the removal hook, as the implementation plan
    writes them

    [PRPs/fix-error-operation-visibility.md] carries the code of the two
    collaborators the sources above call: the filter of the list endpoint
    ([list_active_operations]) and [useRemoveFailedOperation]. *)

Module progress_api.

(** [TERMINAL_STATES = {"completed", "failed", "error", "cancelled"}] *)
Definition TERMINAL_STATES : list string :=
  ["completed"; "failed"; "error"; "cancelled"].

(** [status in states] *)
Definition status_in (status : string) (states : list string) : bool :=
  existsb (String.eqb status) states.

(** [should_include = status not in TERMINAL_STATES or
    (include_failed and status in {"error", "failed"})] *)
Definition should_include (include_failed : bool) (status : string) : bool :=
  negb (status_in status TERMINAL_STATES)
  || (include_failed && status_in status ["error"; "failed"]).

(** The loop of [list_active_operations] over the tracked operations and
    the response it returns; [now] is the timestamp taken at the end. *)
Definition list_active_operations (include_failed : bool)
    (tracked : list FailedOperation) (now : string) : FailedOperationsResponse :=
  let active_operations :=
    List.filter (λ op, should_include include_failed (Op.status op)) tracked in
  {| operations := active_operations;
     count := length active_operations;
     timestamp := now |}.

End progress_api.

Module useRemoveFailedOperation.

(** [mutationFn]: no request, the id is handed back. *)
Definition mutationFn (progressId : string) : Async string :=
  fun w => (Resolved progressId, w).

(** [onSuccess]: the detail query removed, the failed list invalidated. *)
Definition onSuccess (progressId : string) (w : World) : World :=
  let w1 := withQueryClient (removeQueries (KeyDetail progressId)) w in
  withQueryClient (invalidateQueries KeyFailed) w1.

(** [removeMutation.mutate(progressId)]; the hook has no [onError]. *)
Definition mutate (progressId : string) (w : World) : World :=
  match mutationFn progressId w with
  | (Resolved _, w') => onSuccess progressId w'
  | (Rejected _, w') => w'
  end.

End useRemoveFailedOperation.

(** A command of the view, run by the hook it addresses. *)
Definition execute (w : World) (c : FailedOperationsSection.Command) : World :=
  match c with
  | FailedOperationsSection.RetryMutate failedOp =>
      useRetryKnowledgeSource.mutate failedOp w
  | FailedOperationsSection.RemoveMutate progressId =>
      useRemoveFailedOperation.mutate progressId w
  end.

(** The paths [progressService] hands to [callAPIWithETag]:
    [getProgress] interpolates the id as it is into
    [`/api/progress/${progressId}`]; the two lists use fixed paths. *)
Definition getProgress_path (progressId : string) : string :=
  "/api/progress/" +:+ progressId.

Definition listActiveOperations_path : string := "/api/progress/".

Definition listFailedOperations_path : string := "/api/progress/?include_failed=true".

(** ** Vocabulary of the further statements *)

(** The operations retried, in the order of the commands. *)
Definition retries (out : list FailedOperationsSection.Command) : list FailedOperation :=
  omap (λ c, match c with
             | FailedOperationsSection.RetryMutate op => Some op
             | _ => None
             end) out.

(** The ids removed, in the order of the commands. *)
Definition removals (out : list FailedOperationsSection.Command) : list string :=
  omap (λ c, match c with
             | FailedOperationsSection.RemoveMutate p => Some p
             | _ => None
             end) out.

(** The operations whose Retry button was clicked while enabled. *)
Definition enabled_retry_clicks (cs : list (bool * FailedOperationsSection.Click))
  : list FailedOperation :=
  omap (λ bc : bool * FailedOperationsSection.Click,
          match bc with
          | (false, FailedOperationsSection.ClickRetry op) => Some op
          | _ => None
          end) cs.

Definition isConfirm (bc : bool * FailedOperationsSection.Click) : bool :=
  match bc.2 with FailedOperationsSection.ModalConfirm => true | _ => false end.

Definition isRemoveClick (bc : bool * FailedOperationsSection.Click) : bool :=
  match bc.2 with FailedOperationsSection.ClickRemove _ => true | _ => false end.

(** A string is usable where JavaScript tests it for truth. *)
Definition truthy (a : option string) : Prop :=
  ∃ s, a = Some s ∧ s ≠ "".

(** ** The observer of the failed list: polls and clicks *)

Module useFailedOperations.

(** What the component reads of the query behind [useFailedOperations]
    ([useQuery] over [progressService.listFailedOperations], refetched on
    an interval, as [PRPs/fix-error-operation-visibility.md] writes it):
    [data] and [isLoading]. *)
Record Query : Type := mkQuery {
  data : option FailedOperationsResponse;
  isLoading : bool
}.

(** Before the first fetch has settled. *)
Definition initial : Query := {| data := None; isLoading := true |}.

(** A fetch settles: a resolved one replaces the data with what
    [listFailedOperations] made of the answer, a rejected one leaves the
    data of the last success. *)
Definition settle (fetched : Promise FailedOperationsResponse) (q : Query) : Query :=
  match progressService.listFailedOperations fetched with
  | Resolved response => {| data := Some response; isLoading := false |}
  | Rejected _ => {| data := data q; isLoading := false |}
  end.

End useFailedOperations.

Module Observer.

(** The mounted component: its query and its two state cells. *)
Record t : Type := mk {
  query : useFailedOperations.Query;
  local : FailedOperationsSection.State
}.

Definition initial : t :=
  {| query := useFailedOperations.initial; local := FailedOperationsSection.initial |}.

(** What happens to the mounted component: a poll of the list endpoint
    settles with the endpoint's outcome, or the user clicks. *)
Inductive Event : Type :=
| Polled (fetched : Promise FailedOperationsResponse)
| Clicked (isPending : bool) (c : FailedOperationsSection.Click).

Definition step (o : t) (e : Event) : t * list FailedOperationsSection.Command :=
  match e with
  | Polled fetched =>
      ({| query := useFailedOperations.settle fetched (query o); local := local o |}, [])
  | Clicked isPending c =>
      let '(st, out) := FailedOperationsSection.handle isPending (local o) c in
      ({| query := query o; local := st |}, out)
  end.

Fixpoint session (o : t) (es : list Event) : t * list FailedOperationsSection.Command :=
  match es with
  | [] => (o, [])
  | e :: es' =>
      let '(o1, out1) := step o e in
      let '(o2, out2) := session o1 es' in
      (o2, out1 ++ out2)
  end.



(** A click on a button of a card needs the card: the operation is one
    of the list on screen. *)
Definition on_card (o : t) (e : Event) : Prop :=
  match e with
  | Clicked _ (FailedOperationsSection.ClickToggle op
              | FailedOperationsSection.ClickRetry op
              | FailedOperationsSection.ClickRemove op) =>
      useFailedOperations.isLoading (query o) = false ∧
      ∃ shown_data, useFailedOperations.data (query o) = Some shown_data ∧
                    op ∈ operations shown_data
  | _ => True
  end.

(** Every click of a session is on a card on screen at that moment. *)
Fixpoint on_cards (o : t) (es : list Event) : Prop :=
  match es with
  | [] => True
  | e :: es' => on_card o e ∧ on_cards (step o e).1 es'
  end.

End Observer.

(** * Properties *)

(** ** The filter of [listFailedOperations] *)

Lemma isErrorOrFailed_spec (op : FailedOperation) :
  progressService.isErrorOrFailed op = true ↔ failure_class (Op.status op).
Proof.
  unfold progressService.isErrorOrFailed, failure_class.
  rewrite orb_true_iff, !String.eqb_eq. tauto.
Qed.

Lemma failure_not_benign (s : string) : failure_class s → ¬ benign_terminal s.
Proof. intros [-> | ->] [H | H]; discriminate H. Qed.

Lemma elem_of_failedOperationsOf (response : FailedOperationsResponse) (op : FailedOperation) :
  op ∈ operations (progressService.failedOperationsOf response) ↔
  op ∈ operations response ∧ failure_class (Op.status op).
Proof.
  cbn. rewrite !list_elem_of_In, filter_In, isErrorOrFailed_spec. tauto.
Qed.

(** C1: whatever the list endpoint answered, [listFailedOperations]
    resolves to a response whose operations are exactly those of the answer
    with status "error" or "failed", in the order of the answer; none of
    them is completed, cancelled or non-terminal. *)
Theorem C1_listFailedOperations_exactly_failed (response : FailedOperationsResponse) :
  ∃ result,
    progressService.listFailedOperations (Resolved response) = Resolved result ∧
    (∀ op, op ∈ operations result ↔
           op ∈ operations response ∧
           (Op.status op = "error" ∨ Op.status op = "failed")) ∧
    (∀ op, op ∈ operations result →
           terminal (Op.status op) ∧ ¬ benign_terminal (Op.status op)) ∧
    operations result `sublist_of` operations response.
Proof.
  exists (progressService.failedOperationsOf response).
  split; [reflexivity |]. split; [| split].
  - intros op. apply elem_of_failedOperationsOf.
  - intros op [_ Hf]%elem_of_failedOperationsOf.
    split; [by left | by apply failure_not_benign].
  - cbn. induction (operations response) as [| x l IH]; cbn.
    + constructor.
    + destruct (progressService.isErrorOrFailed x); by constructor.
Qed.

Lemma C1_witness :
  let completed := Op.mk "a" "completed" None None "" None None None in
  let failed := Op.mk "b" "failed" None None "boom" None None None in
  let crawling := Op.mk "c" "crawling" None None "" None None None in
  ∃ result,
    progressService.listFailedOperations
      (Resolved (mkResponse [completed; failed; crawling] 3 "t")) = Resolved result ∧
    operations result = [failed].
Proof.
  intros completed failed crawling.
  destruct (C1_listFailedOperations_exactly_failed
              (mkResponse [completed; failed; crawling] 3 "t")) as (result & Hr & _).
  exists result. split; [exact Hr |].
  cbn in Hr. injection Hr as <-. reflexivity.
Defined.

(** C8: in the response built by [listFailedOperations], [count] is the
    length of its own (filtered) operation list, which is the number of
    error/failed operations of the raw answer and not the raw length
    (the two agree only when every raw operation is error/failed); the
    timestamp is the raw one. *)
Theorem C8_count_and_timestamp (response : FailedOperationsResponse) :
  ∃ result,
    progressService.listFailedOperations (Resolved response) = Resolved result ∧
    count result = length (operations result) ∧
    count result = length (List.filter progressService.isErrorOrFailed (operations response)) ∧
    count result ≤ length (operations response) ∧
    (count result = length (operations response) ↔
       Forall (λ op, failure_class (Op.status op)) (operations response)) ∧
    timestamp result = timestamp response.
Proof.
  exists (progressService.failedOperationsOf response).
  repeat split; cbn.
  - apply List.filter_length_le.
  - induction (operations response) as [| x l IH]; cbn; [constructor |].
    pose proof (List.filter_length_le progressService.isErrorOrFailed l) as Hle.
    destruct (progressService.isErrorOrFailed x) eqn:Hx; cbn; intros Hlen.
    + constructor; [by apply isErrorOrFailed_spec | apply IH; lia].
    + lia.
  - induction 1 as [| x l Hx _ IH]; cbn; [done |].
    apply isErrorOrFailed_spec in Hx. rewrite Hx. cbn. by rewrite IH.
Qed.

Lemma C8_witness :
  let completed := Op.mk "a" "completed" None None "" None None None in
  let failed := Op.mk "b" "failed" None None "boom" None None None in
  ∃ result,
    progressService.listFailedOperations
      (Resolved (mkResponse [completed; failed] 2 "2025-01-01T00:00:00")) = Resolved result ∧
    count result = 1 ∧ timestamp result = "2025-01-01T00:00:00".
Proof.
  intros completed failed.
  destruct (C8_count_and_timestamp
              (mkResponse [completed; failed] 2 "2025-01-01T00:00:00"))
    as (result & Hr & _ & Hc & _ & _ & Ht).
  exists result. split; [exact Hr |]. split; [exact Hc | exact Ht].
Defined.

(** ** The expanded-set state *)

Lemma elem_of_toggleExpanded (p q : string) (s : gset string) :
  q ∈ FailedOperationsSection.toggleExpanded p s ↔
  (q = p ∧ p ∉ s) ∨ (q ≠ p ∧ q ∈ s).
Proof.
  unfold FailedOperationsSection.toggleExpanded. cbv zeta.
  case_decide as Hp.
  - rewrite elem_of_difference, elem_of_singleton.
    split; [intros [Hq Hne]; by right | intros [[-> Hn] | [Hne Hq]]; [done | by split]].
  - rewrite elem_of_union, elem_of_singleton.
    split.
    + intros [Hq | ->]; [right | by left].
      split; [| exact Hq]. intros ->. by apply Hp.
    + intros [[-> _] | [_ Hq]]; [by right | by left].
Qed.

(** C10: [toggleExpanded] is an involution on the set of expanded ids;
    one toggle of [p] flips the membership of [p] and of nothing else;
    toggles of distinct ids commute. *)
Theorem C10_toggleExpanded_involution (s : gset string) (p : string) :
  FailedOperationsSection.toggleExpanded p
    (FailedOperationsSection.toggleExpanded p s) = s ∧
  (p ∈ FailedOperationsSection.toggleExpanded p s ↔ p ∉ s) ∧
  (∀ q, q ≠ p → (q ∈ FailedOperationsSection.toggleExpanded p s ↔ q ∈ s)) ∧
  (∀ q, q ≠ p →
     FailedOperationsSection.toggleExpanded p
       (FailedOperationsSection.toggleExpanded q s) =
     FailedOperationsSection.toggleExpanded q
       (FailedOperationsSection.toggleExpanded p s)).
Proof.
  split; [| split; [| split]].
  - apply set_eq. intros x. rewrite !elem_of_toggleExpanded.
    destruct (decide (x = p)) as [-> | Hne]; destruct (decide (p ∈ s)); tauto.
  - rewrite elem_of_toggleExpanded. tauto.
  - intros q Hne. rewrite elem_of_toggleExpanded. tauto.
  - intros q Hne. apply set_eq. intros x. rewrite !elem_of_toggleExpanded.
    destruct (decide (x = p)) as [Hxp | Hxp]; destruct (decide (x = q)) as [Hxq | Hxq];
      subst; tauto.
Qed.

Lemma C10_witness :
  FailedOperationsSection.toggleExpanded "a"
    (FailedOperationsSection.toggleExpanded "b" {["c"]}) =
  FailedOperationsSection.toggleExpanded "b"
    (FailedOperationsSection.toggleExpanded "a" {["c"]}) ∧
  ("b" ∈ FailedOperationsSection.toggleExpanded "a" {["b"]}).
Proof.
  destruct (C10_toggleExpanded_involution {["c"]} "a") as (_ & _ & _ & Hcomm).
  destruct (C10_toggleExpanded_involution {["b"]} "a") as (_ & _ & Hother & _).
  split.
  - apply (Hcomm "b"). discriminate.
  - apply (Hother "b"); [discriminate | by apply elem_of_singleton].
Defined.

(** ** The logs of the expanded details *)

Lemma slice_last10_suffix (logs : list LogItem) :
  logs = take (length logs - 10) logs ++ FailedOperationsSection.slice_last10 logs.
Proof. unfold FailedOperationsSection.slice_last10. by rewrite take_drop. Qed.

Lemma slice_last10_length (logs : list LogItem) :
  length (FailedOperationsSection.slice_last10 logs) = Nat.min 10 (length logs).
Proof. unfold FailedOperationsSection.slice_last10. rewrite length_drop. lia. Qed.

Lemma logObject_sublist (l : list LogItem) :
  (λ e : string * string, LogObject e.1 e.2) <$> omap FailedOperationsSection.logObject l
  `sublist_of` l.
Proof.
  induction l as [| [s | t m] l IH]; cbn.
  - constructor.
  - by constructor.
  - by constructor.
Qed.

(** C9: in the expanded details of a card, the logs block is there only
    when [op.logs] is present and non-empty, and then its lines are the
    (timestamp, message) pairs of the object elements among the last ten
    elements of [op.logs] (all of them when there are fewer than ten), in
    the order of [op.logs]; plain strings give no line. *)
Theorem C9_rendered_logs (isPending : bool) (st : FailedOperationsSection.State)
    (op : FailedOperation) (d : FailedOperationsSection.Details) :
  FailedOperationsSection.details (FailedOperationsSection.card isPending st op) = Some d →
  Op.progressId op ∈ FailedOperationsSection.expandedOps st ∧
  ∀ lines,
    FailedOperationsSection.logsBlock d = Some lines ↔
    ∃ logs older recent,
      Op.logs op = Some logs ∧ logs ≠ [] ∧
      logs = older ++ recent ∧ length recent = Nat.min 10 (length logs) ∧
      lines = omap FailedOperationsSection.logObject recent ∧
      (∀ t m, (t, m) ∈ lines ↔ LogObject t m ∈ recent) ∧
      ((λ e : string * string, LogObject e.1 e.2) <$> lines) `sublist_of` logs.
Proof.
  unfold FailedOperationsSection.card. cbn [FailedOperationsSection.details].
  case_bool_decide as Hexp; [| discriminate].
  intros [= <-]. cbn [FailedOperationsSection.logsBlock]. split; [exact Hexp |].
  intros lines. unfold FailedOperationsSection.crawlLogs.
  split.
  - destruct (Op.logs op) as [logs |]; [| discriminate].
    destruct (Nat.ltb_spec 0 (length logs)) as [Hlen |]; [| discriminate].
    intros [= <-].
    exists logs, (take (length logs - 10) logs), (FailedOperationsSection.slice_last10 logs).
    split; [reflexivity |]. split; [by destruct logs; [cbn in Hlen; lia |] |].
    split; [apply slice_last10_suffix |]. split; [apply slice_last10_length |].
    split; [reflexivity |]. split.
    + intros t m. unfold FailedOperationsSection.logLines. rewrite list_elem_of_omap.
      split.
      * intros ([s | t' m'] & Hin & Heq); [discriminate |]. by injection Heq as -> ->.
      * intros Hin. by exists (LogObject t m).
    + etrans; [apply logObject_sublist |].
      unfold FailedOperationsSection.slice_last10. apply sublist_drop.
  - intros (logs & older & recent & -> & Hne & Happ & Hlen & -> & _).
    destruct (Nat.ltb_spec 0 (length logs)) as [Hpos | Hzero].
    + do 2 f_equal. unfold FailedOperationsSection.logLines,
        FailedOperationsSection.slice_last10. f_equal.
      subst logs. rewrite length_app in Hlen |- *.
      replace (length older + length recent - 10) with (length older) by lia.
      apply drop_app_length.
    + destruct logs; [done | cbn in Hzero; lia].
Qed.

Lemma C9_witness :
  let logs := [LogObject "t0" "m0"; LogString "s1"; LogObject "t2" "m2";
               LogObject "t3" "m3"; LogString "s4"; LogObject "t5" "m5";
               LogObject "t6" "m6"; LogObject "t7" "m7"; LogObject "t8" "m8";
               LogObject "t9" "m9"; LogString "s10"; LogObject "t11" "m11"] in
  let op := Op.mk "p" "error" None None "boom" None (Some logs) None in
  let st := FailedOperationsSection.mkState {["p"]} None in
  ∃ d, FailedOperationsSection.details (FailedOperationsSection.card false st op) = Some d ∧
       FailedOperationsSection.logsBlock d =
         Some [("t2", "m2"); ("t3", "m3"); ("t5", "m5"); ("t6", "m6"); ("t7", "m7");
               ("t8", "m8"); ("t9", "m9"); ("t11", "m11")] ∧
       "p" ∈ FailedOperationsSection.expandedOps st.
Proof.
  intros logs op st.
  eexists. split; [reflexivity |]. split; [reflexivity |].
  refine (proj1 (C9_rendered_logs false st op _ _)). reflexivity.
Defined.

(** ** The handlers of the failed-operations view *)

(** A handler that issued no command did not issue the one looked for. *)
Ltac no_command :=
  intros [= <- <-] Hin; by apply not_elem_of_nil in Hin.

Lemma handle_remove_inv (b : bool) (st st1 : FailedOperationsSection.State)
    (c : FailedOperationsSection.Click) (out : list FailedOperationsSection.Command)
    (p : string) :
  FailedOperationsSection.handle b st c = (st1, out) →
  FailedOperationsSection.RemoveMutate p ∈ out →
  c = FailedOperationsSection.ModalConfirm ∧
  ∃ op, FailedOperationsSection.confirmRemove st = Some op ∧ Op.progressId op = p.
Proof.
  destruct c as [op | op | op | |]; cbn.
  - no_command.
  - intros [= <- <-] Hin. destruct b; [by apply not_elem_of_nil in Hin |].
    apply list_elem_of_singleton in Hin. discriminate Hin.
  - no_command.
  - destruct (FailedOperationsSection.confirmRemove st) as [op |].
    + intros [= <- <-] Hin. apply list_elem_of_singleton in Hin.
      injection Hin as ->. split; [reflexivity | by exists op].
    + no_command.
  - no_command.
Qed.

Lemma handle_retry_inv (b : bool) (st st1 : FailedOperationsSection.State)
    (c : FailedOperationsSection.Click) (out : list FailedOperationsSection.Command)
    (op : FailedOperation) :
  FailedOperationsSection.handle b st c = (st1, out) →
  FailedOperationsSection.RetryMutate op ∈ out →
  b = false ∧ c = FailedOperationsSection.ClickRetry op.
Proof.
  destruct c as [op' | op' | op' | |]; cbn.
  - no_command.
  - intros [= <- <-] Hin. destruct b; [by apply not_elem_of_nil in Hin |].
    apply list_elem_of_singleton in Hin. by injection Hin as ->.
  - no_command.
  - destruct (FailedOperationsSection.confirmRemove st) as [op'' |];
      intros [= <- <-] Hin.
    + apply list_elem_of_singleton in Hin. discriminate Hin.
    + by apply not_elem_of_nil in Hin.
  - no_command.
Qed.

Lemma handle_confirmRemove_inv (b : bool) (st st1 : FailedOperationsSection.State)
    (c : FailedOperationsSection.Click) (out : list FailedOperationsSection.Command)
    (op : FailedOperation) :
  FailedOperationsSection.handle b st c = (st1, out) →
  FailedOperationsSection.confirmRemove st1 = Some op →
  c = FailedOperationsSection.ClickRemove op ∨
  (FailedOperationsSection.confirmRemove st = Some op ∧
   c ≠ FailedOperationsSection.ModalConfirm ∧ c ≠ FailedOperationsSection.ModalCancel).
Proof.
  destruct c as [op' | op' | op' | |]; cbn.
  - intros [= <- <-]; cbn. intros H. by right.
  - intros [= <- <-]. intros H. by right.
  - intros [= <- <-]; cbn. intros [= ->]. by left.
  - destruct (FailedOperationsSection.confirmRemove st) as [op'' |] eqn:Hc;
      intros [= <- <-]; cbn; [discriminate |]. rewrite Hc. discriminate.
  - intros [= <- <-]; cbn. discriminate.
Qed.

(** Where a removal issued during a session comes from: the operation was
    pending in the modal at the start, or its Remove button was clicked
    during the session; in both cases the modal was confirmed afterwards. *)
Lemma run_remove_origin (cs : list (bool * FailedOperationsSection.Click)) :
  ∀ (st st' : FailedOperationsSection.State)
    (out : list FailedOperationsSection.Command) (p : string),
    FailedOperationsSection.run st cs = (st', out) →
    FailedOperationsSection.RemoveMutate p ∈ out →
    (∃ op cs2 b' cs3,
        FailedOperationsSection.confirmRemove st = Some op ∧ Op.progressId op = p ∧
        cs = cs2 ++ (b', FailedOperationsSection.ModalConfirm) :: cs3) ∨
    (∃ cs1 b op cs2 b' cs3,
        cs = cs1 ++ (b, FailedOperationsSection.ClickRemove op) :: cs2 ++
             (b', FailedOperationsSection.ModalConfirm) :: cs3 ∧
        Op.progressId op = p).
Proof.
  induction cs as [| [b0 c] cs IH]; intros st st' out p; cbn.
  - no_command.
  - destruct (FailedOperationsSection.handle b0 st c) as [st1 out1] eqn:Hh.
    destruct (FailedOperationsSection.run st1 cs) as [st2 out2] eqn:Hr.
    intros [= <- <-] [Hin | Hin]%elem_of_app.
    + destruct (handle_remove_inv _ _ _ _ _ _ Hh Hin) as (-> & op & Hc & Hp).
      left. by exists op, [], b0, cs.
    + destruct (IH _ _ _ _ Hr Hin) as
        [(op & cs2 & b' & cs3 & Hc & Hp & ->) |
         (cs1 & b & op & cs2 & b' & cs3 & -> & Hp)].
      * destruct (handle_confirmRemove_inv _ _ _ _ _ _ Hh Hc) as [-> | (Hc0 & _)].
        -- right. by exists [], b0, op, cs2, b', cs3.
        -- left. by exists op, ((b0, c) :: cs2), b', cs3.
      * right. by exists ((b0, c) :: cs1), b, op, cs2, b', cs3.
Qed.

Lemma run_retry_origin (cs : list (bool * FailedOperationsSection.Click)) :
  ∀ (st st' : FailedOperationsSection.State)
    (out : list FailedOperationsSection.Command) (op : FailedOperation),
    FailedOperationsSection.run st cs = (st', out) →
    FailedOperationsSection.RetryMutate op ∈ out →
    (false, FailedOperationsSection.ClickRetry op) ∈ cs.
Proof.
  induction cs as [| [b0 c] cs IH]; intros st st' out op; cbn.
  - no_command.
  - destruct (FailedOperationsSection.handle b0 st c) as [st1 out1] eqn:Hh.
    destruct (FailedOperationsSection.run st1 cs) as [st2 out2] eqn:Hr.
    intros [= <- <-] [Hin | Hin]%elem_of_app.
    + destruct (handle_retry_inv _ _ _ _ _ _ Hh Hin) as [-> ->]. by left.
    + right. by eapply IH.
Qed.










(** ** The registry: time, invariant and calls *)

Lemma elem_of_due (now : nat) (r : Registry.t) (i : string) :
  i ∈ Registry.due now r ↔ ∃ d, Registry.evictions r !! i = Some d ∧ d ≤ now.
Proof.
  unfold Registry.due. rewrite elem_of_dom. unfold is_Some.
  setoid_rewrite map_lookup_filter_Some. reflexivity.
Qed.

Lemma records_elapse_Some (now : nat) (r : Registry.t) (i : string)
    (op : Registry.Operation) :
  Registry.records (Registry.elapse now r) !! i = Some op ↔
  Registry.records r !! i = Some op ∧
  ∀ d, Registry.evictions r !! i = Some d → now < d.
Proof.
  cbn. rewrite map_lookup_filter_Some; cbn. rewrite elem_of_due.
  split; intros [Hrec Hdue]; (split; [exact Hrec |]).
  - intros d Hd. destruct (decide (now < d)) as [| Hge]; [done |].
    exfalso. apply Hdue. exists d. split; [exact Hd | lia].
  - intros (d & Hd & Hle). specialize (Hdue d Hd). lia.
Qed.

Lemma records_elapse_None (now : nat) (r : Registry.t) (i : string) :
  Registry.records r !! i = None →
  Registry.records (Registry.elapse now r) !! i = None.
Proof.
  intros Hnone. destruct (Registry.records (Registry.elapse now r) !! i) eqn:H;
    [| reflexivity].
  apply records_elapse_Some in H as [H _]. congruence.
Qed.

Lemma evictions_elapse_Some (now : nat) (r : Registry.t) (i : string) (d : nat) :
  Registry.evictions (Registry.elapse now r) !! i = Some d ↔
  Registry.evictions r !! i = Some d ∧ now < d.
Proof. cbn. by rewrite map_lookup_filter_Some. Qed.

Lemma evictions_elapse_None (now : nat) (r : Registry.t) (i : string) :
  Registry.evictions r !! i = None →
  Registry.evictions (Registry.elapse now r) !! i = None.
Proof.
  intros Hnone. destruct (Registry.evictions (Registry.elapse now r) !! i) eqn:H;
    [| reflexivity].
  apply evictions_elapse_Some in H as [H _]. congruence.
Qed.

(** Time that has already been accounted for does not count twice. *)
Lemma records_elapse_elapse (now t : nat) (r : Registry.t) (i : string) :
  now ≤ t →
  Registry.records (Registry.elapse t (Registry.elapse now r)) !! i =
  Registry.records (Registry.elapse t r) !! i.
Proof.
  intros Hle. apply option_eq. intros op.
  rewrite !records_elapse_Some. setoid_rewrite evictions_elapse_Some.
  split.
  - intros [[Hrec Hnow] Ht]. split; [exact Hrec |].
    intros d Hd. apply Ht. split; [exact Hd | by apply Hnow].
  - intros [Hrec Ht]. split; [split; [exact Hrec |] |].
    + intros d Hd. specialize (Ht d Hd). lia.
    + intros d [Hd _]. by apply Ht.
Qed.

Lemma fresh_id_inj (n m : nat) : Registry.fresh_id n = Registry.fresh_id m → n = m.
Proof. unfold Registry.fresh_id. apply (inj pretty). Qed.

Lemma wf_fresh (r : Registry.t) :
  Registry.wf r → Registry.records r !! Registry.fresh_id (Registry.issued r) = None.
Proof.
  intros [Hrec _].
  destruct (Registry.records r !! Registry.fresh_id (Registry.issued r)) as [op |] eqn:H;
    [| reflexivity].
  destruct (Hrec _ _ H) as (_ & (n & Hlt & Heq) & _).
  apply fresh_id_inj in Heq. lia.
Qed.

Lemma wf_empty (c : Registry.Config) : Registry.wf (Registry.empty c).
Proof.
  split; cbn.
  - intros i op H. by rewrite lookup_empty in H.
  - intros i d H. by rewrite lookup_empty in H.
Qed.

Lemma wf_elapse (now : nat) (r : Registry.t) :
  Registry.wf r → Registry.wf (Registry.elapse now r).
Proof.
  intros [Hrec Hev]. split.
  - intros i op [Hi Hlive]%records_elapse_Some.
    destruct (Hrec _ _ Hi) as (Hid & Hn & Hterm).
    split; [exact Hid |]. split; [exact Hn |].
    intros Ht. specialize (Hterm Ht). apply evictions_elapse_Some.
    split; [exact Hterm | by apply Hlive].
  - intros i d [Hd Hlt]%evictions_elapse_Some.
    destruct (Hev _ _ Hd) as (op & Hop & Ht). exists op.
    split; [| exact Ht].
    apply records_elapse_Some. split; [exact Hop |].
    intros d' Hd'. congruence.
Qed.

Lemma wf_create (now : nat) (ty : Registry.OpType) (req : OriginalRequest.t)
    (r : Registry.t) :
  Registry.wf r → Registry.wf (Registry.create now ty req r).2.
Proof.
  intros Hwf. apply (wf_elapse now) in Hwf.
  pose proof (wf_fresh _ Hwf) as Hfresh. destruct Hwf as [Hrec Hev].
  unfold Registry.create; cbn [snd].
  set (r1 := Registry.elapse now r) in *.
  split; cbn [Registry.records Registry.evictions Registry.issued Registry.config].
  - intros j op. rewrite lookup_insert_Some.
    intros [[<- <-] | [Hne Hj]]; cbn.
    + split; [reflexivity |]. split; [| discriminate].
      exists (Registry.issued r1). split; [subst r1; cbn; lia | reflexivity].
    + destruct (Hrec _ _ Hj) as (Hid & (n & Hlt & Hn) & Hterm).
      split; [exact Hid |]. split; [| exact Hterm].
      exists n. split; [subst r1; cbn in *; lia | exact Hn].
  - intros j d Hd. destruct (Hev _ _ Hd) as (op & Hop & Ht).
    exists op. split; [| exact Ht].
    rewrite lookup_insert_ne; [exact Hop |]. intros <-. congruence.
Qed.

Lemma wf_update (now : nat) (i : string) (p : option nat) (s l : option string)
    (r : Registry.t) :
  Registry.wf r → Registry.wf (Registry.update now i p s l r).2.
Proof.
  intros Hwf. apply (wf_elapse now) in Hwf. unfold Registry.update.
  set (r1 := Registry.elapse now r) in *.
  destruct (Registry.records r1 !! i) as [op |] eqn:Hi; [| exact Hwf].
  destruct (Registry.is_terminal (Registry.status op)) eqn:Hterm; [exact Hwf |].
  destruct Hwf as [Hrec Hev].
  split; cbn [snd Registry.records Registry.evictions Registry.issued Registry.config].
  - intros j op'. rewrite lookup_insert_Some.
    intros [[<- <-] | [Hne Hj]]; cbn.
    + destruct (Hrec _ _ Hi) as (Hid & Hn & _).
      split; [exact Hid |]. split; [exact Hn |]. congruence.
    + by apply Hrec.
  - intros j d Hd. destruct (Hev _ _ Hd) as (op' & Hop & Ht).
    exists op'. split; [| exact Ht].
    rewrite lookup_insert_ne; [exact Hop |]. intros <-. congruence.
Qed.

Lemma edge_from_terminal (a b : Registry.Status) :
  Registry.is_terminal a = true → Registry.edge a b = false.
Proof. by destruct a, b. Qed.

Lemma wf_transition (now : nat) (i : string) (target : Registry.Status)
    (m : option string) (r : Registry.t) :
  Registry.wf r → Registry.wf (Registry.transition now i target m r).2.
Proof.
  intros Hwf. apply (wf_elapse now) in Hwf. unfold Registry.transition.
  set (r1 := Registry.elapse now r) in *.
  destruct (Registry.records r1 !! i) as [op |] eqn:Hi; [| exact Hwf].
  destruct (Registry.edge (Registry.status op) target) eqn:Hedge; [| exact Hwf].
  assert (Registry.is_terminal (Registry.status op) = false) as Hlive.
  { destruct (Registry.is_terminal (Registry.status op)) eqn:Ht; [| reflexivity].
    by rewrite (edge_from_terminal _ target Ht) in Hedge. }
  destruct Hwf as [Hrec Hev]. destruct (Hrec _ _ Hi) as (Hid & Hn & _).
  cbn [snd]. destruct (Registry.is_terminal target) eqn:Htarget.
  - split; cbn [Registry.schedule Registry.records Registry.evictions
                  Registry.issued Registry.config].
    + intros j op'. rewrite lookup_insert_Some.
      intros [[<- <-] | [Hne Hj]]; cbn.
      * split; [exact Hid |]. split; [exact Hn |].
        intros _. by rewrite lookup_insert_eq.
      * destruct (Hrec _ _ Hj) as (Hid' & Hn' & Hterm').
        split; [exact Hid' |]. split; [exact Hn' |].
        intros Ht. rewrite lookup_insert_ne by done. by apply Hterm'.
    + intros j d. rewrite lookup_insert_Some.
      intros [[<- <-] | [Hne Hd]].
      * eexists. rewrite lookup_insert_eq. split; [reflexivity | exact Htarget].
      * destruct (Hev _ _ Hd) as (op' & Hop & Ht). exists op'.
        split; [| exact Ht]. by rewrite lookup_insert_ne.
  - split; cbn [Registry.records Registry.evictions Registry.issued Registry.config].
    + intros j op'. rewrite lookup_insert_Some.
      intros [[<- <-] | [Hne Hj]]; cbn.
      * split; [exact Hid |]. split; [exact Hn |]. congruence.
      * by apply Hrec.
    + intros j d Hd. destruct (Hev _ _ Hd) as (op' & Hop & Ht). exists op'.
      split; [| exact Ht].
      rewrite lookup_insert_ne; [exact Hop |]. intros <-. congruence.
Qed.

Lemma wf_remove (now : nat) (i : string) (r : Registry.t) :
  Registry.wf r → Registry.wf (Registry.remove now i r).2.
Proof.
  intros Hwf. apply (wf_elapse now) in Hwf. destruct Hwf as [Hrec Hev].
  unfold Registry.remove, Registry.cancel.
  split; cbn [snd Registry.records Registry.evictions Registry.issued Registry.config].
  - intros j op [Hne Hj]%lookup_delete_Some.
    destruct (Hrec _ _ Hj) as (Hid & Hn & Hterm).
    split; [exact Hid |]. split; [exact Hn |].
    intros Ht. rewrite lookup_delete_ne; [by apply Hterm | exact Hne].
  - intros j d [Hne Hd]%lookup_delete_Some.
    destruct (Hev _ _ Hd) as (op & Hop & Ht). exists op.
    split; [| exact Ht]. by rewrite lookup_delete_ne.
Qed.

Lemma wf_step (r : Registry.t) (c : nat * Registry.Call) :
  Registry.wf r → Registry.wf (Registry.step r c).
Proof.
  destruct c as [now [ty req | i p s l | i target m | i]]; cbn.
  - apply wf_create.
  - apply wf_update.
  - apply wf_transition.
  - apply wf_remove.
Qed.

Lemma wf_steps (cs : list (nat * Registry.Call)) (r : Registry.t) :
  Registry.wf r → Registry.wf (Registry.steps r cs).
Proof.
  revert r. induction cs as [| c cs IH]; intros r Hwf; [exact Hwf |].
  cbn. apply IH. by apply wf_step.
Qed.

Lemma config_step (r : Registry.t) (c : nat * Registry.Call) :
  Registry.config (Registry.step r c) = Registry.config r.
Proof.
  destruct c as [now [ty req | i p s l | i target m | i]]; cbn; try reflexivity.
  - unfold Registry.update.
    destruct (Registry.records (Registry.elapse now r) !! i) as [op |]; [| reflexivity].
    by destruct (Registry.is_terminal (Registry.status op)).
  - unfold Registry.transition.
    destruct (Registry.records (Registry.elapse now r) !! i) as [op |]; [| reflexivity].
    destruct (Registry.edge (Registry.status op) target); [| reflexivity].
    by destruct (Registry.is_terminal target).
Qed.

(** A terminal record and its pending eviction are untouched by any call
    made before the eviction is due, short of an explicit removal. *)
Lemma step_keeps_terminal (r : Registry.t) (c : nat * Registry.Call) (i : string)
    (op : Registry.Operation) (d : nat) :
  Registry.wf r →
  Registry.records r !! i = Some op →
  Registry.is_terminal (Registry.status op) = true →
  Registry.evictions r !! i = Some d →
  c.1 < d → c.2 ≠ Registry.CRemove i →
  Registry.records (Registry.step r c) !! i = Some op ∧
  Registry.evictions (Registry.step r c) !! i = Some d.
Proof.
  intros Hwf Hi Hterm Hd Hlt Hnot. destruct c as [now call]. cbn in Hlt, Hnot.
  assert (Registry.records (Registry.elapse now r) !! i = Some op) as Hi1.
  { apply records_elapse_Some. split; [exact Hi |]. intros d' Hd'. congruence. }
  assert (Registry.evictions (Registry.elapse now r) !! i = Some d) as Hd1.
  { by apply evictions_elapse_Some. }
  pose proof (wf_fresh _ (wf_elapse now _ Hwf)) as Hfresh.
  destruct call as [ty req | j p s l | j target m | j]; cbn [Registry.step].
  - unfold Registry.create.
    cbn [snd Registry.records Registry.evictions].
    split; [| exact Hd1]. rewrite lookup_insert_ne; [exact Hi1 |].
    intros Heq. rewrite Heq in Hfresh. congruence.
  - unfold Registry.update.
    destruct (Registry.records (Registry.elapse now r) !! j) as [opj |] eqn:Hj;
      [| by split].
    destruct (Registry.is_terminal (Registry.status opj)) eqn:Htj; [by split |].
    cbn [snd Registry.records Registry.evictions]. split; [| exact Hd1].
    rewrite lookup_insert_ne; [exact Hi1 |]. intros ->. congruence.
  - unfold Registry.transition.
    destruct (Registry.records (Registry.elapse now r) !! j) as [opj |] eqn:Hj;
      [| by split].
    destruct (Registry.edge (Registry.status opj) target) eqn:Hedge; [| by split].
    assert (j ≠ i) as Hne.
    { intros ->. rewrite Hi1 in Hj. injection Hj as <-.
      by rewrite (edge_from_terminal _ target Hterm) in Hedge. }
    cbn [snd]. destruct (Registry.is_terminal target);
      cbn [Registry.schedule Registry.records Registry.evictions];
      rewrite ?lookup_insert_ne by done; by split.
  - unfold Registry.remove, Registry.cancel.
    cbn [snd Registry.records Registry.evictions].
    assert (j ≠ i) as Hne by (intros ->; by apply Hnot).
    by rewrite !lookup_delete_ne.
Qed.

Lemma steps_keep_terminal (cs : list (nat * Registry.Call)) :
  ∀ (r : Registry.t) (i : string) (op : Registry.Operation) (d : nat),
    Registry.wf r →
    Registry.records r !! i = Some op →
    Registry.is_terminal (Registry.status op) = true →
    Registry.evictions r !! i = Some d →
    Forall (λ c : nat * Registry.Call, c.1 < d ∧ c.2 ≠ Registry.CRemove i) cs →
    Registry.records (Registry.steps r cs) !! i = Some op ∧
    Registry.evictions (Registry.steps r cs) !! i = Some d.
Proof.
  induction cs as [| c cs IH]; intros r i op d Hwf Hi Hterm Hd Hall; [by split |].
  apply Forall_cons in Hall as [[Hlt Hnot] Hall]. cbn.
  destruct (step_keeps_terminal r c i op d Hwf Hi Hterm Hd Hlt Hnot) as [Hi' Hd'].
  apply IH; [by apply wf_step | done..].
Qed.

Lemma get_before_due (t : nat) (r : Registry.t) (i : string)
    (op : Registry.Operation) (d : nat) :
  Registry.records r !! i = Some op → Registry.evictions r !! i = Some d → t < d →
  Registry.get t i r = Registry.Ok op.
Proof.
  intros Hi Hd Hlt. unfold Registry.get.
  assert (Registry.records (Registry.elapse t r) !! i = Some op) as ->; [| reflexivity].
  apply records_elapse_Some. split; [exact Hi |]. intros d' Hd'. congruence.
Qed.

Lemma get_from_due (t : nat) (r : Registry.t) (i : string) (d : nat) :
  Registry.evictions r !! i = Some d → d ≤ t →
  Registry.get t i r = Registry.Fail Registry.NotFound.
Proof.
  intros Hd Hle. unfold Registry.get.
  destruct (Registry.records (Registry.elapse t r) !! i) as [op |] eqn:H; [| reflexivity].
  apply records_elapse_Some in H as [_ H]. specialize (H d Hd). lia.
Qed.

(** What a successful terminal transition leaves behind. *)
Lemma transition_terminal_ok (t0 : nat) (i : string) (target : Registry.Status)
    (m : option string) (r r' : Registry.t) :
  Registry.is_terminal target = true →
  Registry.transition t0 i target m r = (Registry.Ok tt, r') →
  Registry.evictions r' !! i = Some (t0 + Registry.retention (Registry.config r) target) ∧
  ∃ op, Registry.records r' !! i = Some op ∧ Registry.status op = target ∧
        Registry.last_updated_at op = t0.
Proof.
  intros Hterm. unfold Registry.transition.
  destruct (Registry.records (Registry.elapse t0 r) !! i) as [op |]; [| discriminate].
  destruct (Registry.edge (Registry.status op) target); [| discriminate].
  rewrite Hterm. intros [= <-]. cbn. rewrite !lookup_insert_eq.
  split; [reflexivity |]. eexists. split; [reflexivity |]. by split.
Qed.

(** The two views of the gateway are cut from one registry: keeping the
    failure class of [list(include_failed = true)], as the observer's
    filter does, gives [list_failed]; and that answer never carries a
    benign-terminal operation. *)
Lemma list_failed_of_include (now : nat) (r : Registry.t) :
  List.filter (λ op, Registry.is_failure (Registry.status op))
    (Registry.list_include now true r) = Registry.list_failed now r ∧
  Forall (λ op, Registry.is_benign (Registry.status op) = false)
    (Registry.list_include now true r).
Proof.
  unfold Registry.list_include, Registry.list_failed, Registry.list_.
  generalize (map_to_list (Registry.records (Registry.elapse now r))).*2 as l.
  intros l. split.
  - induction l as [| op l IH]; [reflexivity |].
    simpl. destruct (Registry.status op) eqn:Hs; simpl; rewrite ?Hs; simpl;
      first [exact IH | f_equal; exact IH].
  - induction l as [| op l IH]; [constructor |].
    simpl. destruct (Registry.status op) eqn:Hs; simpl;
      try exact IH; (constructor; [by rewrite Hs | exact IH]).
Qed.

Lemma config_steps (cs : list (nat * Registry.Call)) (r : Registry.t) :
  Registry.config (Registry.steps r cs) = Registry.config r.
Proof.
  revert r. induction cs as [| c cs IH]; intros r; [reflexivity |].
  cbn. by rewrite IH, config_step.
Qed.

(** C6: the default windows are 300 time-units for the failure class and
    30 for the benign-terminal class, the first at least the second.  A
    terminal transition at time [t0] schedules the eviction at [t0] plus
    the window of the class of the target state; whatever calls follow
    before that time, short of an explicit removal of the operation, [get]
    answers with the unchanged record at every time before [t0 + window]
    and with NotFound from then on.  Under the default configuration a
    failure-class record is thus kept for 300 time-units.  In every
    registry reached from the empty one, each terminal record has its
    eviction pending at its terminal-transition time plus its window. *)
Theorem C6_retention_windows :
  (Registry.failure_retention Registry.default_config = 300 ∧
   Registry.benign_retention Registry.default_config = 30 ∧
   Registry.benign_retention Registry.default_config
     ≤ Registry.failure_retention Registry.default_config) ∧
  (∀ (r r' : Registry.t) (i : string) (target : Registry.Status)
     (message : option string) (t0 : nat),
     Registry.wf r →
     Registry.is_terminal target = true →
     Registry.transition t0 i target message r = (Registry.Ok tt, r') →
     let window := Registry.retention (Registry.config r) target in
     Registry.evictions r' !! i = Some (t0 + window) ∧
     (Registry.config r = Registry.default_config →
      Registry.is_failure target = true → window = 300) ∧
     ∃ op,
       Registry.status op = target ∧ Registry.last_updated_at op = t0 ∧
       ∀ cs,
         Forall (λ c : nat * Registry.Call,
                   c.1 < t0 + window ∧ c.2 ≠ Registry.CRemove i) cs →
         (∀ t, t < t0 + window →
               Registry.get t i (Registry.steps r' cs) = Registry.Ok op) ∧
         (∀ t, t0 + window ≤ t →
               Registry.get t i (Registry.steps r' cs) = Registry.Fail Registry.NotFound)) ∧
  (∀ (c : Registry.Config) (cs : list (nat * Registry.Call)) (i : string)
     (op : Registry.Operation),
     Registry.records (Registry.steps (Registry.empty c) cs) !! i = Some op →
     Registry.is_terminal (Registry.status op) = true →
     Registry.evictions (Registry.steps (Registry.empty c) cs) !! i =
       Some (Registry.last_updated_at op + Registry.retention c (Registry.status op))).
Proof.
  split; [| split].
  - cbn. repeat split. lia.
  - intros r r' i target message t0 Hwf Hterm Htr window.
    destruct (transition_terminal_ok _ _ _ _ _ _ Hterm Htr) as (Hd & op & Hi & Hs & Hu).
    fold window in Hd. split; [exact Hd |]. split.
    + intros Hc Hf. unfold window, Registry.retention. by rewrite Hc, Hf.
    + exists op. split; [exact Hs |]. split; [exact Hu |].
      intros cs Hall.
      assert (Registry.wf r') as Hwf'.
      { replace r' with (Registry.transition t0 i target message r).2
          by (by rewrite Htr). by apply wf_transition. }
      assert (Registry.is_terminal (Registry.status op) = true) as Hterm'
        by (by rewrite Hs).
      destruct (steps_keep_terminal cs r' i op _ Hwf' Hi Hterm' Hd Hall) as [Hi' Hd'].
      split; intros t Ht.
      * by eapply get_before_due.
      * by eapply get_from_due.
  - intros c cs i op Hi Hterm.
    pose proof (wf_steps cs _ (wf_empty c)) as [Hrec _].
    destruct (Hrec _ _ Hi) as (_ & _ & Hdue). rewrite (Hdue Hterm).
    by rewrite config_steps.
Qed.

Lemma wf_scenario_started :
  Registry.wf
    (Registry.transition 1 "0" Registry.Starting None
       (Registry.create 0 Registry.IngestionCrawl scenario_request
          (Registry.empty Registry.default_config)).2).2.
Proof. apply wf_transition, wf_create, wf_empty. Qed.

Lemma C6_witness :
  ∃ op,
    Registry.status op = Registry.Error ∧
    Registry.get 309 "0"
      (Registry.steps scenario_registry
         [(100, Registry.CCreate Registry.IngestionCrawl scenario_request);
          (200, Registry.CUpdate "1" (Some 40) None None)]) = Registry.Ok op ∧
    Registry.get 310 "0"
      (Registry.steps scenario_registry
         [(100, Registry.CCreate Registry.IngestionCrawl scenario_request);
          (200, Registry.CUpdate "1" (Some 40) None None)])
      = Registry.Fail Registry.NotFound.
Proof.
  destruct (proj1 (proj2 C6_retention_windows) _ scenario_registry "0" Registry.Error
              (Some "memory usage exceeded") 10 wf_scenario_started eq_refl eq_refl)
    as (_ & _ & op & Hs & _ & Hkeep).
  exists op. split; [exact Hs |].
  destruct (Hkeep [(100, Registry.CCreate Registry.IngestionCrawl scenario_request);
                   (200, Registry.CUpdate "1" (Some 40) None None)]) as [Hin Hout].
  - repeat constructor; cbn; (lia || discriminate).
  - split; [apply Hin | apply Hout]; vm_compute; lia.
Defined.

Lemma records_remove (now : nat) (i : string) (r : Registry.t) :
  Registry.records (Registry.remove now i r).2 !! i = None ∧
  Registry.evictions (Registry.remove now i r).2 !! i = None.
Proof. cbn. by rewrite !lookup_delete_eq. Qed.

(** C7: [remove(id)] never fails: it answers ok on a present id, on an
    absent id and when repeated.  After it the id is NotFound at every
    time and has no eviction pending; a second [remove] of the same id
    changes nothing beyond what the passing of time does, and on an absent
    id [remove] leaves every record as it is. *)
Theorem C7_remove_idempotent (r : Registry.t) (i : string) (t1 t2 : nat) :
  (Registry.remove t1 i r).1 = Registry.Ok tt ∧
  (Registry.remove t2 i (Registry.remove t1 i r).2).1 = Registry.Ok tt ∧
  (Registry.remove t2 i (Registry.remove t1 i r).2).2 =
    Registry.elapse t2 (Registry.remove t1 i r).2 ∧
  (∀ t, Registry.get t i (Registry.remove t1 i r).2 = Registry.Fail Registry.NotFound) ∧
  Registry.evictions (Registry.remove t1 i r).2 !! i = None ∧
  (Registry.get t1 i r = Registry.Fail Registry.NotFound →
   (Registry.remove t1 i r).1 = Registry.Ok tt ∧
   Registry.records (Registry.remove t1 i r).2 = Registry.records (Registry.elapse t1 r)).
Proof.
  destruct (records_remove t1 i r) as [Hrec Hev].
  set (r1 := (Registry.remove t1 i r).2) in *.
  split; [reflexivity |]. split; [reflexivity |]. split; [| split; [| split]].
  - unfold Registry.remove at 1, Registry.cancel.
    cbn [snd Registry.records Registry.evictions Registry.issued Registry.config].
    rewrite (delete_id (Registry.records (Registry.elapse t2 r1)))
      by (by apply records_elapse_None).
    rewrite (delete_id (Registry.evictions (Registry.elapse t2 r1)))
      by (by apply evictions_elapse_None).
    by destruct (Registry.elapse t2 r1).
  - intros t. unfold Registry.get. by rewrite records_elapse_None.
  - exact Hev.
  - unfold Registry.get.
    destruct (Registry.records (Registry.elapse t1 r) !! i) eqn:Habsent; [discriminate |].
    intros _. split; [reflexivity |].
    subst r1. unfold Registry.remove, Registry.cancel.
    cbn [snd Registry.records]. by apply delete_id.
Qed.

Lemma C7_witness :
  Registry.get 20 "7" scenario_registry = Registry.Fail Registry.NotFound ∧
  (Registry.remove 20 "7" scenario_registry).1 = Registry.Ok tt ∧
  (Registry.remove 30 "0" (Registry.remove 20 "0" scenario_registry).2).1 = Registry.Ok tt.
Proof.
  destruct (C7_remove_idempotent scenario_registry "7" 20 20)
    as (_ & _ & _ & _ & _ & Habsent).
  destruct (C7_remove_idempotent scenario_registry "0" 20 30) as (_ & Hsecond & _).
  split; [reflexivity |]. split; [| exact Hsecond].
  apply Habsent. reflexivity.
Defined.

(** ** The retry mutation *)

Lemma mutationFn_missing (failedOp : FailedOperation) (w : World) :
  request_missing failedOp →
  useRetryKnowledgeSource.mutationFn failedOp w =
    (Rejected (JsError useRetryKnowledgeSource.MissingOriginalRequest), w).
Proof.
  unfold request_missing, useRetryKnowledgeSource.mutationFn.
  destruct (Op.original_request failedOp) as [original |]; [| reflexivity].
  intros ->. reflexivity.
Qed.

Lemma mutationFn_present (failedOp : FailedOperation) (original : OriginalRequest.t)
    (w : World) :
  Op.original_request failedOp = Some original →
  OriginalRequest.url original ≠ "" →
  useRetryKnowledgeSource.mutationFn failedOp w =
    knowledgeService.crawlUrl (retry_request original) w.
Proof.
  intros Ho Hurl. unfold useRetryKnowledgeSource.mutationFn. rewrite Ho.
  destruct (String.eqb_spec (OriginalRequest.url original) "") as [He |]; [done |].
  reflexivity.
Qed.

Lemma sent_crawlUrl (request : CrawlRequest.t) (w : World) :
  sent (knowledgeService.crawlUrl request w).2 = sent w ++ [PostCrawl request].
Proof.
  unfold knowledgeService.crawlUrl. destruct (accepts w request); [| reflexivity].
  by destruct (Registry.create _ _ _ _).
Qed.

(** C2: [mutationFn] fails on its guard: when the original request is
    absent or its url is empty it rejects with the missing-original-request
    error, and then nothing is sent, the registry and the query cache are
    as before, and [mutate] only adds the error toast.  The hook has no
    check of the status and no other error of its own: with a usable
    original request its outcome does not depend on the status, and the
    crawl request is sent whatever the status is. *)
Theorem C2_retry_guard (failedOp : FailedOperation) (w : World) :
  (request_missing failedOp →
   useRetryKnowledgeSource.mutationFn failedOp w =
     (Rejected (JsError useRetryKnowledgeSource.MissingOriginalRequest), w) ∧
   registry (useRetryKnowledgeSource.mutate failedOp w) = registry w ∧
   sent (useRetryKnowledgeSource.mutate failedOp w) = sent w ∧
   queryClient (useRetryKnowledgeSource.mutate failedOp w) = queryClient w ∧
   toasts (useRetryKnowledgeSource.mutate failedOp w) =
     toasts w ++ [(useRetryKnowledgeSource.MissingOriginalRequest, "error")]) ∧
  (∀ original s,
     Op.original_request failedOp = Some original →
     OriginalRequest.url original ≠ "" →
     useRetryKnowledgeSource.mutationFn (with_status s failedOp) w =
       useRetryKnowledgeSource.mutationFn failedOp w ∧
     sent (useRetryKnowledgeSource.mutationFn (with_status s failedOp) w).2 =
       sent w ++ [PostCrawl (retry_request original)]).
Proof.
  split.
  - intros Hmiss. pose proof (mutationFn_missing failedOp w Hmiss) as Hfn.
    split; [exact Hfn |]. unfold useRetryKnowledgeSource.mutate. by rewrite Hfn.
  - intros original s Ho Hurl. split; [reflexivity |].
    rewrite (mutationFn_present _ original) by done. apply sent_crawlUrl.
Qed.

Lemma C2_witness :
  let failedOp := Op.mk "0" "error" None None "boom" None None None in
  let w := world_of scenario_registry 20 in
  useRetryKnowledgeSource.mutationFn failedOp w =
    (Rejected (JsError "Cannot retry: Original request data missing"), w) ∧
  sent (useRetryKnowledgeSource.mutate failedOp w) = [] ∧
  sent (useRetryKnowledgeSource.mutationFn
          (with_status "processing" scenario_failedOp) w).2 =
    [PostCrawl (retry_request scenario_request)].
Proof.
  intros failedOp w.
  destruct (C2_retry_guard failedOp w) as (Hguard & _).
  destruct (C2_retry_guard scenario_failedOp w) as (_ & Hsend).
  destruct (Hguard I) as (Hfn & _ & Hsent & _).
  split; [exact Hfn |]. split; [exact Hsent |].
  refine (proj2 (Hsend scenario_request "processing" eq_refl _)). discriminate.
Defined.

(** Counterexample to C2 as stated: an operation whose status is
    "completed" and whose original request is present is not rejected; its
    crawl request is sent and a new operation is created. *)
Lemma C2_counterexample :
  let failedOp := with_status "completed" scenario_failedOp in
  let w := world_of scenario_registry 20 in
  ¬ failure_class (Op.status failedOp) ∧
  (useRetryKnowledgeSource.mutationFn failedOp w).1 = Resolved {| progressId := "1" |} ∧
  sent (useRetryKnowledgeSource.mutationFn failedOp w).2 =
    [PostCrawl (retry_request scenario_request)] ∧
  Registry.get 20 "1" (registry w) = Registry.Fail Registry.NotFound ∧
  ∃ new, Registry.get 20 "1"
           (registry (useRetryKnowledgeSource.mutationFn failedOp w).2) = Registry.Ok new.
Proof.
  intros failedOp w. split; [| split; [| split; [| split]]].
  - intros [H | H]; discriminate H.
  - reflexivity.
  - reflexivity.
  - reflexivity.
  - eexists. vm_compute. reflexivity.
Qed.

(** C3: the round trip, evaluated on scenario A with a request that sets
    [max_concurrent]: the retry sends a crawl request without it, so the new operation's
    original request differs from the one the failed operation was created
    with.  The new id differs from the old one and the old record is still
    answered unchanged. *)
Lemma C3_retry_drops_max_concurrent :
  let w := world_of scenario_registry 20 in
  let w' := useRetryKnowledgeSource.mutate scenario_failedOp w in
  Op.original_request scenario_failedOp = Some scenario_request ∧
  OriginalRequest.max_concurrent scenario_request = Some 5%Z ∧
  (∃ old, Registry.get 20 "0" (registry w) = Registry.Ok old ∧
          Registry.status old = Registry.Error ∧
          Registry.original_request old = scenario_request ∧
          Registry.get 20 "0" (registry w') = Registry.Ok old) ∧
  sent w' = [PostCrawl {| CrawlRequest.url := "https://x";
                          CrawlRequest.max_depth := Some 2%Z;
                          CrawlRequest.tags := Some ["docs"] |}] ∧
  ∃ new, Registry.get 20 "1" (registry w') = Registry.Ok new ∧
         Registry.id new = "1" ∧
         OriginalRequest.max_concurrent (Registry.original_request new) = None ∧
         Registry.original_request new ≠ scenario_request.
Proof.
  intros w w'. split; [reflexivity |]. split; [reflexivity |]. split; [| split].
  - eexists. split; [vm_compute; reflexivity |]. split; [reflexivity |].
    split; reflexivity.
  - reflexivity.
  - eexists. split; [vm_compute; reflexivity |]. split; [reflexivity |].
    split; [reflexivity | discriminate].
Qed.

(** A creation leaves every other id as it was, at every later time. *)
Lemma create_frame (now : nat) (ty : Registry.OpType) (req : OriginalRequest.t)
    (r : Registry.t) (i : string) :
  i ≠ (Registry.create now ty req r).1 →
  (∀ t, now ≤ t →
        Registry.get t i (Registry.create now ty req r).2 = Registry.get t i r) ∧
  (∀ d, now < d →
        (Registry.evictions (Registry.create now ty req r).2 !! i = Some d ↔
         Registry.evictions r !! i = Some d)).
Proof.
  unfold Registry.create. cbn [fst snd]. intros Hne. split.
  - intros t Hle. unfold Registry.get.
    rewrite <- (records_elapse_elapse now t r i Hle).
    match goal with
    | |- match ?a with _ => _ end = match ?b with _ => _ end =>
        assert (a = b) as ->; [| reflexivity]
    end.
    apply option_eq. intros op. rewrite 2!records_elapse_Some.
    cbn [Registry.records Registry.evictions].
    rewrite lookup_insert_ne; [reflexivity | intros Heq; by apply Hne].
  - intros d Hlt. cbn [Registry.evictions]. rewrite evictions_elapse_Some.
    split; [by intros [Hd _] | by intros Hd].
Qed.





(** * Further properties of the sources *)

(** ** What the section shows *)

Lemma filter_nil_iff (l : list FailedOperation) :
  List.filter progressService.isErrorOrFailed l = [] ↔
  Forall (λ op, ¬ failure_class (Op.status op)) l.
Proof.
  induction l as [| op l IH]; cbn; [by split |].
  destruct (progressService.isErrorOrFailed op) eqn:Hop.
  - split; [discriminate |]. intros [Hn _]%Forall_cons.
    by apply isErrorOrFailed_spec in Hop.
  - rewrite IH, Forall_cons. split; [| by intros [_ ?]].
    intros Hl. split; [| exact Hl].
    intros Hf%isErrorOrFailed_spec. congruence.
Qed.

(** X1: while loading the component shows the loading text whatever the
    data; without data it shows nothing; on the answer of
    [listFailedOperations] it shows nothing exactly when no operation of
    the raw answer is error or failed, and otherwise a section whose badge
    equals the number of its cards, one card per error/failed operation in
    the order of the raw answer. *)
Theorem X1_section_shown_iff_failures (response : FailedOperationsResponse)
    (isPending : bool) (st : FailedOperationsSection.State) :
  (∀ failedOps,
     FailedOperationsSection.render failedOps true isPending st =
       FailedOperationsSection.LoadingText) ∧
  FailedOperationsSection.render None false isPending st = FailedOperationsSection.Null ∧
  (FailedOperationsSection.render
     (Some (progressService.failedOperationsOf response)) false isPending st =
     FailedOperationsSection.Null ↔
   Forall (λ op, ¬ failure_class (Op.status op)) (operations response)) ∧
  (∀ badge cards modal,
     FailedOperationsSection.render
       (Some (progressService.failedOperationsOf response)) false isPending st =
       FailedOperationsSection.Section_ badge cards modal →
     badge = length cards ∧
     FailedOperationsSection.key <$> cards =
       Op.progressId <$> List.filter progressService.isErrorOrFailed (operations response)).
Proof.
  split; [reflexivity |]. split; [reflexivity |].
  unfold FailedOperationsSection.render.
  cbn [operations count progressService.failedOperationsOf].
  rewrite <- filter_nil_iff.
  destruct (List.filter progressService.isErrorOrFailed (operations response))
    as [| op l] eqn:Hf.
  - split; [by split | discriminate].
  - cbn [length Nat.eqb]. split; [by split |].
    intros badge cards modal [= <- <- _].
    split; [cbn; by rewrite length_fmap |].
    cbn. f_equal. by rewrite <- list_fmap_compose.
Qed.

Lemma X1_witness :
  let completed := Op.mk "a" "completed" None None "" None None None in
  let failed := Op.mk "b" "failed" None None "boom" None None None in
  FailedOperationsSection.render
    (Some (progressService.failedOperationsOf (mkResponse [completed] 1 "t")))
    false false FailedOperationsSection.initial = FailedOperationsSection.Null ∧
  ∃ cards,
    FailedOperationsSection.render
      (Some (progressService.failedOperationsOf (mkResponse [completed; failed] 7 "t")))
      false false FailedOperationsSection.initial =
      FailedOperationsSection.Section_ 1 cards None ∧
    FailedOperationsSection.key <$> cards = ["b"].
Proof.
  intros completed failed. split.
  - apply (proj1 (proj2 (proj2 (X1_section_shown_iff_failures
                                  (mkResponse [completed] 1 "t") false
                                  FailedOperationsSection.initial)))).
    constructor; [| constructor]. intros [H | H]; discriminate H.
  - eexists. split; [reflexivity |].
    refine (proj2 (proj2 (proj2 (proj2 (X1_section_shown_iff_failures
              (mkResponse [completed; failed] 7 "t") false
              FailedOperationsSection.initial))) _ _ _ eq_refl)).
Defined.

Lemma or_else_truthy (a : option string) (b : string) :
  truthy a → ∃ s, a = Some s ∧ FailedOperationsSection.or_else a b = s.
Proof.
  intros (s & -> & Hs). exists s. split; [reflexivity |]. cbn.
  by destruct (String.eqb_spec s "").
Qed.

Lemma or_else_falsy (a : option string) (b : string) :
  ¬ truthy a → FailedOperationsSection.or_else a b = b.
Proof.
  intros Hn. destruct a as [s |]; [| reflexivity]. cbn.
  destruct (String.eqb_spec s "") as [| Hs]; [reflexivity |].
  exfalso. apply Hn. by exists s.
Qed.

Lemma or_else_nonempty (a : option string) (b : string) :
  b ≠ "" → FailedOperationsSection.or_else a b ≠ "".
Proof.
  intros Hb. destruct a as [s |]; [| exact Hb]. cbn.
  by destruct (String.eqb_spec s "").
Qed.

(** X2: the title of a card is the operation's url when that is present
    and non-empty, else its current url when that is present and non-empty,
    else "Unknown URL"; the preview is the error message, or "Unknown
    error" when the message is empty.  Neither is ever empty. *)
Theorem X2_card_fallbacks (isPending : bool) (st : FailedOperationsSection.State)
    (op : FailedOperation) :
  let c := FailedOperationsSection.card isPending st op in
  (truthy (Op.url op) → Some (FailedOperationsSection.title c) = Op.url op) ∧
  (¬ truthy (Op.url op) → truthy (Op.currentUrl op) →
   Some (FailedOperationsSection.title c) = Op.currentUrl op) ∧
  (¬ truthy (Op.url op) → ¬ truthy (Op.currentUrl op) →
   FailedOperationsSection.title c = "Unknown URL") ∧
  (Op.error op ≠ "" → FailedOperationsSection.preview c = Op.error op) ∧
  (Op.error op = "" → FailedOperationsSection.preview c = "Unknown error") ∧
  FailedOperationsSection.title c ≠ "" ∧
  FailedOperationsSection.preview c ≠ "".
Proof.
  cbn [FailedOperationsSection.card FailedOperationsSection.title
       FailedOperationsSection.preview].
  repeat apply conj.
  - intros Hu. by destruct (or_else_truthy _
      (FailedOperationsSection.or_else (Op.currentUrl op) "Unknown URL") Hu)
      as (s & -> & ->).
  - intros Hu Hc. rewrite (or_else_falsy _ _ Hu).
    by destruct (or_else_truthy _ "Unknown URL" Hc) as (s & -> & ->).
  - intros Hu Hc. by rewrite (or_else_falsy _ _ Hu), (or_else_falsy _ _ Hc).
  - intros He. cbn. by destruct (String.eqb_spec (Op.error op) "").
  - intros ->. reflexivity.
  - apply or_else_nonempty, or_else_nonempty. discriminate.
  - apply or_else_nonempty. discriminate.
Qed.

Lemma X2_witness :
  let op := Op.mk "p" "error" (Some "") (Some "https://x/page") "" None None None in
  let c := FailedOperationsSection.card false FailedOperationsSection.initial op in
  Some (FailedOperationsSection.title c) = Some "https://x/page" ∧
  FailedOperationsSection.preview c = "Unknown error".
Proof.
  intros op c.
  destruct (X2_card_fallbacks false FailedOperationsSection.initial op)
    as (_ & Hcur & _ & _ & Hprev & _).
  split.
  - apply Hcur.
    + intros (s & [= <-] & Hs). by apply Hs.
    + exists "https://x/page". split; [reflexivity | discriminate].
  - by apply Hprev.
Defined.

(** ** Expansion, retries and the confirmation modal *)

(** X3: a card carries its details exactly when its chevron is up, and
    the details show the error message as it is; a click on a card's
    toggle flips the expansion of the cards with that operation's id and
    of no other, and no other handler changes the expansion of any card. *)
Theorem X3_expansion_follows_toggles (b isPending : bool)
    (st : FailedOperationsSection.State) (c : FailedOperationsSection.Click)
    (op' : FailedOperation) :
  let st' := (FailedOperationsSection.handle b st c).1 in
  let before := FailedOperationsSection.chevronUp
                  (FailedOperationsSection.card isPending st op') in
  let after := FailedOperationsSection.chevronUp
                 (FailedOperationsSection.card isPending st' op') in
  (is_Some (FailedOperationsSection.details
              (FailedOperationsSection.card isPending st op')) ↔ before = true) ∧
  (∀ d, FailedOperationsSection.details
          (FailedOperationsSection.card isPending st op') = Some d →
        FailedOperationsSection.fullError d = Op.error op') ∧
  after = match c with
          | FailedOperationsSection.ClickToggle op =>
              if decide (Op.progressId op' = Op.progressId op)
              then negb before else before
          | _ => before
          end.
Proof.
  cbn [FailedOperationsSection.card FailedOperationsSection.chevronUp
       FailedOperationsSection.details].
  split; [| split].
  - case_bool_decide; split; try done; intros [d Hd]; discriminate Hd.
  - intros d. case_bool_decide; [| discriminate]. by intros [= <-].
  - destruct c as [op | op | op | |]; cbn [FailedOperationsSection.handle fst
      FailedOperationsSection.expandedOps]; try reflexivity.
    + case_decide as Hid.
      * rewrite Hid.
        destruct (decide (Op.progressId op ∈ FailedOperationsSection.expandedOps st))
          as [Hin | Hout].
        -- rewrite (bool_decide_eq_true_2 _ Hin). cbn.
           apply bool_decide_eq_false_2. rewrite elem_of_toggleExpanded. tauto.
        -- rewrite (bool_decide_eq_false_2 _ Hout). cbn.
           apply bool_decide_eq_true_2. rewrite elem_of_toggleExpanded. tauto.
      * apply bool_decide_ext. rewrite elem_of_toggleExpanded. tauto.
    + by destruct (FailedOperationsSection.confirmRemove st).
Qed.

Lemma retries_app (out1 out2 : list FailedOperationsSection.Command) :
  retries (out1 ++ out2) = retries out1 ++ retries out2.
Proof. apply omap_app. Qed.

Lemma removals_app (out1 out2 : list FailedOperationsSection.Command) :
  removals (out1 ++ out2) = removals out1 ++ removals out2.
Proof. apply omap_app. Qed.

Lemma enabled_retry_clicks_cons (x : bool * FailedOperationsSection.Click)
    (cs : list (bool * FailedOperationsSection.Click)) :
  enabled_retry_clicks (x :: cs) = enabled_retry_clicks [x] ++ enabled_retry_clicks cs.
Proof. exact (omap_app _ [x] cs). Qed.

(** X4: the retries a session issues are exactly the operations of the
    clicks on Retry made while no retry was pending, in click order; a
    click on a disabled Retry button and every other click issue none. *)
Theorem X4_retries_are_enabled_clicks
    (cs : list (bool * FailedOperationsSection.Click))
    (st : FailedOperationsSection.State) :
  retries (FailedOperationsSection.run st cs).2 = enabled_retry_clicks cs.
Proof.
  revert st. induction cs as [| [b c] cs IH]; intros st; [reflexivity |].
  cbn [FailedOperationsSection.run].
  destruct (FailedOperationsSection.handle b st c) as [st1 out1] eqn:Hh.
  specialize (IH st1).
  destruct (FailedOperationsSection.run st1 cs) as [st2 out2].
  cbn [snd] in IH |- *. rewrite retries_app, IH.
  rewrite (enabled_retry_clicks_cons (b, c) cs). f_equal.
  destruct c as [op | op | op | |]; cbn in Hh.
  - by injection Hh as <- <-; destruct b.
  - injection Hh as <- <-. by destruct b.
  - by injection Hh as <- <-; destruct b.
  - destruct (FailedOperationsSection.confirmRemove st);
      injection Hh as <- <-; by destruct b.
  - by injection Hh as <- <-; destruct b.
Qed.

(** In any session, removals are paid for: each one uses up a confirm of
    the modal and the operation pending in it. *)
Lemma removals_bounded (cs : list (bool * FailedOperationsSection.Click)) :
  ∀ (st st' : FailedOperationsSection.State)
    (out : list FailedOperationsSection.Command),
    FailedOperationsSection.run st cs = (st', out) →
    length (removals out) ≤ length (List.filter isConfirm cs) ∧
    length (removals out)
      + match FailedOperationsSection.confirmRemove st' with Some _ => 1 | None => 0 end
    ≤ length (List.filter isRemoveClick cs)
      + match FailedOperationsSection.confirmRemove st with Some _ => 1 | None => 0 end.
Proof.
  induction cs as [| [b c] cs IH]; intros st st' out.
  - intros [= <- <-]. cbn. lia.
  - cbn [FailedOperationsSection.run].
    destruct (FailedOperationsSection.handle b st c) as [st1 out1] eqn:Hh.
    destruct (FailedOperationsSection.run st1 cs) as [st2 out2] eqn:Hr.
    intros [= <- <-]. destruct (IH _ _ _ Hr) as [IH1 IH2].
    rewrite removals_app, length_app.
    destruct c as [op | op | op | |]; cbn in Hh.
    + injection Hh as <- <-. cbn in *. lia.
    + injection Hh as <- <-. destruct b; cbn in *; lia.
    + injection Hh as <- <-. cbn in *.
      destruct (FailedOperationsSection.confirmRemove st); lia.
    + destruct (FailedOperationsSection.confirmRemove st) eqn:Hc;
        injection Hh as <- <-; cbn in *; rewrite ?Hc in *; lia.
    + injection Hh as <- <-. cbn in *.
      destruct (FailedOperationsSection.confirmRemove st); lia.
Qed.

(** X5: from the initial state, a session issues at most as many removals
    as the modal was confirmed and at most as many as Remove buttons were
    clicked; without a confirm it issues none. *)
Theorem X5_removals_bounded_by_confirms
    (cs : list (bool * FailedOperationsSection.Click))
    (st' : FailedOperationsSection.State)
    (out : list FailedOperationsSection.Command) :
  FailedOperationsSection.run FailedOperationsSection.initial cs = (st', out) →
  length (removals out) ≤ length (List.filter isConfirm cs) ∧
  length (removals out) ≤ length (List.filter isRemoveClick cs) ∧
  (List.filter isConfirm cs = [] → removals out = []).
Proof.
  intros Hrun. destruct (removals_bounded cs _ _ _ Hrun) as [H1 H2].
  cbn in H2. split; [exact H1 |]. split.
  - destruct (FailedOperationsSection.confirmRemove st'); lia.
  - intros Hnone. rewrite Hnone in H1. cbn in H1.
    destruct (removals out); [reflexivity | cbn in H1; lia].
Qed.

Lemma X5_witness :
  let op := Op.mk "p" "error" None None "boom" None None None in
  let cs := [(false, FailedOperationsSection.ClickRemove op);
             (false, FailedOperationsSection.ModalConfirm);
             (false, FailedOperationsSection.ModalConfirm)] in
  length (removals (FailedOperationsSection.run FailedOperationsSection.initial cs).2) ≤ 1.
Proof.
  intros op cs.
  exact (proj1 (proj2 (X5_removals_bounded_by_confirms cs _ _ eq_refl))).
Defined.

Lemma X3_witness :
  let a := Op.mk "a" "error" None None "boom" None None None in
  let b := Op.mk "b" "failed" None None "bang" None None None in
  let st := (FailedOperationsSection.handle false FailedOperationsSection.initial
               (FailedOperationsSection.ClickToggle a)).1 in
  FailedOperationsSection.chevronUp (FailedOperationsSection.card false st a) = true ∧
  FailedOperationsSection.chevronUp (FailedOperationsSection.card false st b) = false ∧
  ∀ d, FailedOperationsSection.details (FailedOperationsSection.card false st a) = Some d →
       FailedOperationsSection.fullError d = "boom".
Proof.
  intros a b st.
  destruct (X3_expansion_follows_toggles false false FailedOperationsSection.initial
              (FailedOperationsSection.ClickToggle a) a) as (_ & _ & Ha).
  destruct (X3_expansion_follows_toggles false false FailedOperationsSection.initial
              (FailedOperationsSection.ClickToggle a) b) as (_ & _ & Hb).
  destruct (X3_expansion_follows_toggles false false st
              (FailedOperationsSection.ClickToggle a) a) as (_ & Hd & _).
  split; [exact Ha |]. split; [exact Hb | exact Hd].
Defined.

Lemma run_app (cs1 cs2 : list (bool * FailedOperationsSection.Click))
    (st : FailedOperationsSection.State) :
  FailedOperationsSection.run st (cs1 ++ cs2) =
  ((FailedOperationsSection.run (FailedOperationsSection.run st cs1).1 cs2).1,
   (FailedOperationsSection.run st cs1).2 ++
   (FailedOperationsSection.run (FailedOperationsSection.run st cs1).1 cs2).2).
Proof.
  revert st. induction cs1 as [| [b c] cs1 IH]; intros st.
  - cbn. by destruct (FailedOperationsSection.run st cs2).
  - cbn [app FailedOperationsSection.run].
    destruct (FailedOperationsSection.handle b st c) as [st1 out1].
    rewrite IH.
    destruct (FailedOperationsSection.run st1 cs1) as [st2 out2]. cbn [fst snd].
    destruct (FailedOperationsSection.run st2 cs2) as [st3 out3]. cbn [fst snd].
    by rewrite app_assoc.
Qed.

(** X6: what the last click of a session does to the modal.  A click on
    Remove opens it for that operation, named by its url or "this
    operation", and issues nothing; Cancel closes it and issues nothing;
    Confirm closes it and issues the removal of exactly the operation that
    was pending, or nothing when none was.  None of the three changes the
    set of expanded cards. *)
Theorem X6_modal_after_last_click
    (cs : list (bool * FailedOperationsSection.Click))
    (st : FailedOperationsSection.State) (b : bool) :
  let before := FailedOperationsSection.run st cs in
  let after c := FailedOperationsSection.run st (cs ++ [(b, c)]) in
  (∀ op,
     (after (FailedOperationsSection.ClickRemove op)).2 = before.2 ∧
     FailedOperationsSection.confirmRemove
       (after (FailedOperationsSection.ClickRemove op)).1 = Some op ∧
     ∀ data isPending,
       operations data ≠ [] →
       ∃ cards,
         FailedOperationsSection.render (Some data) false isPending
           (after (FailedOperationsSection.ClickRemove op)).1 =
         FailedOperationsSection.Section_ (count data) cards
           (Some (FailedOperationsSection.or_else (Op.url op) "this operation"))) ∧
  ((after FailedOperationsSection.ModalCancel).2 = before.2 ∧
   FailedOperationsSection.confirmRemove
     (after FailedOperationsSection.ModalCancel).1 = None) ∧
  ((after FailedOperationsSection.ModalConfirm).2 =
     before.2 ++
     match FailedOperationsSection.confirmRemove before.1 with
     | Some op => [FailedOperationsSection.RemoveMutate (Op.progressId op)]
     | None => []
     end ∧
   FailedOperationsSection.confirmRemove
     (after FailedOperationsSection.ModalConfirm).1 = None) ∧
  (∀ c, match c with
        | FailedOperationsSection.ClickRemove _
        | FailedOperationsSection.ModalCancel
        | FailedOperationsSection.ModalConfirm =>
            FailedOperationsSection.expandedOps (after c).1 =
            FailedOperationsSection.expandedOps before.1
        | _ => True
        end).
Proof.
  intros before after. subst after. cbv beta.
  setoid_rewrite run_app. fold before.
  cbn [FailedOperationsSection.run FailedOperationsSection.handle fst snd].
  split; [| split; [| split]].
  - intros op. cbn. rewrite app_nil_r. split; [reflexivity |].
    split; [reflexivity |].
    intros data isPending Hne. unfold FailedOperationsSection.render.
    destruct (operations data) as [| x l] eqn:Hops; [done |].
    cbn. eexists. reflexivity.
  - cbn. by rewrite app_nil_r.
  - destruct (FailedOperationsSection.confirmRemove before.1) eqn:Hc; cbn;
      rewrite ?app_nil_r; by split.
  - intros [op | op | op | |]; try exact I; rewrite run_app; fold before;
      cbn; try reflexivity.
    by destruct (FailedOperationsSection.confirmRemove before.1).
Qed.

Lemma X6_witness :
  let op := Op.mk "p" "error" (Some "https://x") None "boom" None None None in
  let cs := [(false, FailedOperationsSection.ClickRemove op)] in
  ∃ cards,
    FailedOperationsSection.render (Some (mkResponse [op] 1 "t")) false false
      (FailedOperationsSection.run FailedOperationsSection.initial
         ([] ++ [(false, FailedOperationsSection.ClickRemove op)])).1 =
    FailedOperationsSection.Section_ 1 cards (Some "https://x").
Proof.
  intros op cs.
  destruct (X6_modal_after_last_click [] FailedOperationsSection.initial false)
    as (Hopen & _).
  destruct (Hopen op) as (_ & _ & Hmodal).
  apply (Hmodal (mkResponse [op] 1 "t") false). discriminate.
Defined.

(** ** The window of log lines *)

Lemma length_omap_le {A B : Type} (f : A → option B) (l : list A) :
  length (omap f l) ≤ length l.
Proof.
  induction l as [| x l IH]; cbn; [lia |]. destruct (f x); cbn; lia.
Qed.

Lemma omap_all_None {A B : Type} (f : A → option B) (l : list A) :
  Forall (λ x, f x = None) l → omap f l = [].
Proof. induction 1 as [| x l Hx _ IH]; cbn; [done |]. by rewrite Hx. Qed.

(** X7: at most ten log lines are shown and never more than there are
    log entries; a log of at most ten entries is shown whole, minus its
    plain strings; an empty or absent log gives no block, while a
    non-empty log whose last ten entries are all plain strings gives the
    block with its heading and no line. *)
Theorem X7_log_lines_bounds (op : FailedOperation) (logs : list LogItem) :
  length (FailedOperationsSection.logLines logs) ≤ 10 ∧
  length (FailedOperationsSection.logLines logs) ≤ length logs ∧
  (length logs ≤ 10 →
   FailedOperationsSection.logLines logs = omap FailedOperationsSection.logObject logs) ∧
  (Op.logs op = None ∨ Op.logs op = Some [] →
   FailedOperationsSection.crawlLogs op = None) ∧
  (Op.logs op = Some logs → logs ≠ [] →
   Forall (λ x, FailedOperationsSection.logObject x = None)
     (FailedOperationsSection.slice_last10 logs) →
   FailedOperationsSection.crawlLogs op = Some []).
Proof.
  unfold FailedOperationsSection.logLines.
  split; [| split; [| split; [| split]]].
  - etrans; [apply length_omap_le |]. rewrite slice_last10_length. lia.
  - etrans; [apply length_omap_le |]. rewrite slice_last10_length. lia.
  - intros Hle. unfold FailedOperationsSection.slice_last10.
    by replace (length logs - 10) with 0 by lia.
  - unfold FailedOperationsSection.crawlLogs. by intros [-> | ->].
  - intros Hl Hne Hall. unfold FailedOperationsSection.crawlLogs. rewrite Hl.
    destruct logs as [| x l]; [done |]. cbn [length Nat.ltb Nat.leb].
    unfold FailedOperationsSection.logLines. by rewrite omap_all_None.
Qed.

Lemma X7_witness :
  let op := Op.mk "p" "error" None None "boom" None
              (Some [LogObject "t0" "m0"; LogString "a"; LogString "b"]) None in
  FailedOperationsSection.logLines [LogObject "t0" "m0"; LogString "a"] = [("t0", "m0")] ∧
  FailedOperationsSection.crawlLogs
    (Op.mk "q" "error" None None "boom" None (Some [LogString "a"]) None) = Some [] ∧
  FailedOperationsSection.crawlLogs
    (Op.mk "r" "error" None None "boom" None (Some []) None) = None.
Proof.
  intros op.
  destruct (X7_log_lines_bounds op [LogObject "t0" "m0"; LogString "a"])
    as (_ & _ & Hwhole & _).
  destruct (X7_log_lines_bounds
              (Op.mk "q" "error" None None "boom" None (Some [LogString "a"]) None)
              [LogString "a"]) as (_ & _ & _ & _ & Hstrings).
  destruct (X7_log_lines_bounds
              (Op.mk "r" "error" None None "boom" None (Some []) None) [])
    as (_ & _ & _ & Hempty & _).
  split; [apply Hwhole; cbn; lia |]. split.
  - apply Hstrings; [reflexivity | discriminate | by repeat constructor].
  - apply Hempty. by right.
Defined.

(** X8: the shown window slides: appending an entry to a log of ten or
    more entries drops the oldest entry of the window and puts the new one
    last, appending to a shorter log only adds it; so the newest object
    entry is always the last line, and a newly appended plain string never
    adds a line. *)
Theorem X8_log_window_slides (logs : list LogItem) (x : LogItem) :
  (10 ≤ length logs →
   FailedOperationsSection.slice_last10 (logs ++ [x]) =
     drop 1 (FailedOperationsSection.slice_last10 logs) ++ [x]) ∧
  (length logs < 10 →
   FailedOperationsSection.slice_last10 (logs ++ [x]) =
     FailedOperationsSection.slice_last10 logs ++ [x]) ∧
  (∀ t m, x = LogObject t m →
     ∃ earlier, FailedOperationsSection.logLines (logs ++ [x]) = earlier ++ [(t, m)]) ∧
  (∀ s, x = LogString s →
     length (FailedOperationsSection.logLines (logs ++ [x]))
       ≤ length (FailedOperationsSection.logLines logs)).
Proof.
  assert (10 ≤ length logs →
          FailedOperationsSection.slice_last10 (logs ++ [x]) =
            drop 1 (FailedOperationsSection.slice_last10 logs) ++ [x]) as Hfull.
  { intros Hge. unfold FailedOperationsSection.slice_last10.
    rewrite length_app, drop_drop. cbn [length].
    replace (length logs + 1 - 10) with (length logs - 10 + 1) by lia.
    apply drop_app_le. lia. }
  assert (length logs < 10 →
          FailedOperationsSection.slice_last10 (logs ++ [x]) =
            FailedOperationsSection.slice_last10 logs ++ [x]) as Hshort.
  { intros Hlt. unfold FailedOperationsSection.slice_last10.
    rewrite length_app. cbn [length].
    replace (length logs + 1 - 10) with 0 by lia.
    by replace (length logs - 10) with 0 by lia. }
  split; [exact Hfull |]. split; [exact Hshort |].
  unfold FailedOperationsSection.logLines. split.
  - intros t m ->. destruct (Nat.lt_ge_cases (length logs) 10) as [Hlt | Hge].
    + rewrite (Hshort Hlt), omap_app. by eexists.
    + rewrite (Hfull Hge), omap_app. by eexists.
  - intros s ->. destruct (Nat.lt_ge_cases (length logs) 10) as [Hlt | Hge].
    + rewrite (Hshort Hlt), omap_app, length_app. cbn. lia.
    + rewrite (Hfull Hge), omap_app, length_app.
      generalize (FailedOperationsSection.slice_last10 logs) as w.
      intros [| y l]; cbn; [lia |]. rewrite drop_0.
      destruct (FailedOperationsSection.logObject y); cbn; lia.
Qed.

Lemma X8_witness :
  let logs := [LogObject "t0" "m0"; LogObject "t1" "m1"] in
  FailedOperationsSection.slice_last10 (logs ++ [LogString "s"]) =
    FailedOperationsSection.slice_last10 logs ++ [LogString "s"] ∧
  ∃ earlier,
    FailedOperationsSection.logLines (logs ++ [LogObject "t2" "m2"]) =
      earlier ++ [("t2", "m2")].
Proof.
  intros logs.
  destruct (X8_log_window_slides logs (LogString "s")) as (_ & Hshort & _).
  destruct (X8_log_window_slides logs (LogObject "t2" "m2")) as (_ & _ & Hlast & _).
  split; [apply Hshort; cbn; lia | by apply Hlast].
Defined.

(** ** The service over the list endpoint *)

Lemma filter_idem {A : Type} (f : A → bool) (l : list A) :
  List.filter f (List.filter f l) = List.filter f l.
Proof.
  induction l as [| x l IH]; cbn; [done |].
  destruct (f x) eqn:Hx; cbn; rewrite ?Hx, IH; done.
Qed.

(** X9: [listFailedOperations] is idempotent: fed its own outcome it
    gives that outcome back, and the response it builds is unchanged by a
    second pass of the filter, operations, count and timestamp alike; a
    rejected request is passed on with its reason. *)
Theorem X9_listFailedOperations_idempotent (fetched : Promise FailedOperationsResponse) :
  progressService.listFailedOperations (progressService.listFailedOperations fetched) =
    progressService.listFailedOperations fetched ∧
  (∀ response,
     fetched = Resolved response →
     progressService.failedOperationsOf (progressService.failedOperationsOf response) =
       progressService.failedOperationsOf response) ∧
  (∀ reason, fetched = Rejected reason →
             progressService.listFailedOperations fetched = Rejected reason).
Proof.
  assert (∀ response,
            progressService.failedOperationsOf
              (progressService.failedOperationsOf response) =
            progressService.failedOperationsOf response) as Hidem.
  { intros response. unfold progressService.failedOperationsOf. cbn.
    by rewrite filter_idem. }
  split; [| split].
  - destruct fetched as [response | e]; cbn; [| reflexivity]. by rewrite Hidem.
  - intros response _. apply Hidem.
  - by intros reason ->.
Qed.

Lemma X9_witness :
  let completed := Op.mk "a" "completed" None None "" None None None in
  let failed := Op.mk "b" "failed" None None "boom" None None None in
  let response := mkResponse [completed; failed] 2 "t" in
  progressService.failedOperationsOf (progressService.failedOperationsOf response) =
    mkResponse [failed] 1 "t" ∧
  progressService.listFailedOperations (Rejected (JsError "offline")) =
    Rejected (JsError "offline").
Proof.
  intros completed failed response.
  destruct (X9_listFailedOperations_idempotent (Resolved response)) as (_ & Hidem & _).
  destruct (X9_listFailedOperations_idempotent (Rejected (JsError "offline")))
    as (_ & _ & Hrej).
  split; [| by apply Hrej].
  rewrite (Hidem response eq_refl). reflexivity.
Defined.

Lemma should_include_failure (include_failed : bool) (op : FailedOperation) :
  progressService.isErrorOrFailed op = true →
  progress_api.should_include include_failed (Op.status op) = include_failed.
Proof.
  intros [-> | ->]%isErrorOrFailed_spec; by destruct include_failed.
Qed.

Lemma should_include_not_benign (include_failed : bool) (status : string) :
  progress_api.should_include include_failed status = true → ¬ benign_terminal status.
Proof. intros Hs [-> | ->]; by destruct include_failed. Qed.

Lemma should_include_true_cases (status : string) :
  progress_api.should_include true status = true ↔ ¬ benign_terminal status.
Proof.
  split; [apply should_include_not_benign |].
  intros Hnb. unfold progress_api.should_include, progress_api.status_in. cbn.
  destruct (String.eqb_spec status "completed") as [-> | _];
    [exfalso; apply Hnb; by left |].
  destruct (String.eqb_spec status "failed") as [-> | _]; [reflexivity |].
  destruct (String.eqb_spec status "error") as [-> | _]; [reflexivity |].
  destruct (String.eqb_spec status "cancelled") as [-> | _];
    [exfalso; apply Hnb; by right | reflexivity].
Qed.

(** X10: the observer's filter over the list endpoint.  Asked with
    [include_failed=true] the endpoint answers with every tracked
    operation that is not completed or cancelled, and
    [listFailedOperations] keeps of it exactly the error/failed operations
    among all tracked ones, in order; asked without the flag the endpoint
    answers with no error/failed operation at all, so the same filter
    would keep nothing. *)
Theorem X10_filter_over_endpoint (tracked : list FailedOperation) (now : string) :
  operations (progressService.failedOperationsOf
                (progress_api.list_active_operations true tracked now)) =
    List.filter progressService.isErrorOrFailed tracked ∧
  operations (progressService.failedOperationsOf
                (progress_api.list_active_operations false tracked now)) = [] ∧
  (∀ op, op ∈ operations (progress_api.list_active_operations true tracked now) ↔
         op ∈ tracked ∧ ¬ benign_terminal (Op.status op)) ∧
  (∀ op, op ∈ operations (progress_api.list_active_operations false tracked now) ↔
         op ∈ tracked ∧ ¬ terminal (Op.status op)).
Proof.
  cbn [operations progress_api.list_active_operations progressService.failedOperationsOf].
  split; [| split; [| split]].
  - induction tracked as [| op l IH]; [reflexivity |]. cbn [List.filter].
    destruct (progressService.isErrorOrFailed op) eqn:Hop.
    + rewrite (should_include_failure true op Hop). cbn [List.filter].
      by rewrite Hop, IH.
    + destruct (progress_api.should_include true (Op.status op)); [| exact IH].
      cbn [List.filter]. by rewrite Hop.
  - induction tracked as [| op l IH]; [reflexivity |]. cbn [List.filter].
    destruct (progress_api.should_include false (Op.status op)) eqn:Hinc; [| exact IH].
    cbn [List.filter].
    destruct (progressService.isErrorOrFailed op) eqn:Hop; [| exact IH].
    by rewrite (should_include_failure false op Hop) in Hinc.
  - intros op. by rewrite list_elem_of_In, filter_In, <- list_elem_of_In,
      should_include_true_cases.
  - intros op. rewrite list_elem_of_In, filter_In, <- list_elem_of_In.
    apply and_iff_compat_l.
    unfold progress_api.should_include, progress_api.status_in, terminal,
      failure_class, benign_terminal. cbn.
    destruct (String.eqb_spec (Op.status op) "completed");
      destruct (String.eqb_spec (Op.status op) "failed");
      destruct (String.eqb_spec (Op.status op) "error");
      destruct (String.eqb_spec (Op.status op) "cancelled"); cbn;
      split; try tauto; try discriminate.
Qed.

(** ** More on the retry mutation *)

Lemma mutate_keeps_wire (failedOp : FailedOperation) (w : World) :
  sent (useRetryKnowledgeSource.mutate failedOp w) =
    sent (useRetryKnowledgeSource.mutationFn failedOp w).2 ∧
  registry (useRetryKnowledgeSource.mutate failedOp w) =
    registry (useRetryKnowledgeSource.mutationFn failedOp w).2 ∧
  clock (useRetryKnowledgeSource.mutate failedOp w) =
    clock (useRetryKnowledgeSource.mutationFn failedOp w).2.
Proof.
  unfold useRetryKnowledgeSource.mutate.
  by destruct (useRetryKnowledgeSource.mutationFn failedOp w) as [[data | e] w1].
Qed.

Lemma request_missing_dec (failedOp : FailedOperation) :
  request_missing failedOp ∨
  ∃ original, Op.original_request failedOp = Some original ∧
              OriginalRequest.url original ≠ "".
Proof.
  unfold request_missing. destruct (Op.original_request failedOp) as [original |];
    [| by left].
  destruct (decide (OriginalRequest.url original = "")); [by left |].
  right. by exists original.
Qed.



(** X12: a retry puts at most one request on the wire, after those
    already sent, and it is always a crawl submission built from a present
    original request: its url is that request's url and is never empty,
    its depth and tags are that request's. *)
Theorem X12_crawl_request_is_wellformed (failedOp : FailedOperation) (w : World) :
  ∃ extra,
    sent (useRetryKnowledgeSource.mutate failedOp w) = sent w ++ extra ∧
    length extra ≤ 1 ∧
    ∀ call, call ∈ extra →
      ∃ original,
        Op.original_request failedOp = Some original ∧
        OriginalRequest.url original ≠ "" ∧
        call = PostCrawl {| CrawlRequest.url := OriginalRequest.url original;
                            CrawlRequest.max_depth := OriginalRequest.max_depth original;
                            CrawlRequest.tags := OriginalRequest.tags original |}.
Proof.
  destruct (mutate_keeps_wire failedOp w) as (-> & _).
  destruct (request_missing_dec failedOp) as [Hmiss | (original & Ho & Hurl)].
  - rewrite (mutationFn_missing _ w Hmiss). exists []. cbn.
    split; [by rewrite app_nil_r |]. split; [lia |].
    intros call Hin. by apply not_elem_of_nil in Hin.
  - rewrite (mutationFn_present _ original w Ho Hurl), sent_crawlUrl.
    eexists. split; [reflexivity |]. split; [cbn; lia |].
    intros call ->%list_elem_of_singleton. by exists original.
Qed.

Lemma X12_witness :
  ∃ extra,
    sent (useRetryKnowledgeSource.mutate scenario_failedOp
            (world_of scenario_registry 20)) = [] ++ extra ∧
    ∀ call, call ∈ extra → ∃ request, call = PostCrawl request ∧
                                      CrawlRequest.url request ≠ "".
Proof.
  destruct (X12_crawl_request_is_wellformed scenario_failedOp
              (world_of scenario_registry 20)) as (extra & Hsent & _ & Hcalls).
  exists extra. split; [exact Hsent |].
  intros call Hin. destruct (Hcalls call Hin) as (original & _ & Hurl & ->).
  eexists. split; [reflexivity | exact Hurl].
Defined.

(** ** The removal hook and whole sessions *)

(** X13: removing a failed operation is a dismissal on the observer's
    side only: nothing is sent, the registry, the clock and the toasts are
    untouched; the detail query of that id leaves the cache, every other
    query stays, and the failed list is marked for refetch.  Doing it
    twice is the same as doing it once. *)
Theorem X13_remove_is_client_side (progressId : string) (w : World) :
  let w' := useRemoveFailedOperation.mutate progressId w in
  sent w' = sent w ∧ registry w' = registry w ∧ toasts w' = toasts w ∧
  clock w' = clock w ∧
  queries (queryClient w') !! KeyDetail progressId = None ∧
  (∀ k, k ≠ KeyDetail progressId →
        queries (queryClient w') !! k = queries (queryClient w) !! k) ∧
  KeyFailed ∈ invalidated (queryClient w') ∧
  useRemoveFailedOperation.mutate progressId w' = w'.
Proof.
  cbn. do 4 (split; [reflexivity |]). split; [apply lookup_delete_eq |]. split.
  - intros k Hk. by apply lookup_delete_ne.
  - split.
    + apply elem_of_union. right. by apply elem_of_singleton.
    + unfold useRemoveFailedOperation.onSuccess, withQueryClient, removeQueries,
        invalidateQueries. cbn. f_equal. f_equal.
      * apply delete_id, lookup_delete_eq.
      * apply set_eq. intros x.
        rewrite !elem_of_union, !elem_of_difference, !elem_of_union,
          !elem_of_difference, !elem_of_singleton.
        split; [tauto |]. intros [[Hx Hn] | ->]; [| by right].
        left. split; [left; by split | exact Hn].
Qed.

Lemma X13_witness :
  let w := withQueryClient
             (λ _, {| queries := {[KeyDetail "0" := DetailData scenario_failedOp;
                                   KeyDetail "1" := DetailData scenario_failedOp]};
                      invalidated := ∅ |})
             (world_of scenario_registry 20) in
  queries (queryClient (useRemoveFailedOperation.mutate "0" w)) !! KeyDetail "1" =
    Some (DetailData scenario_failedOp) ∧
  queries (queryClient (useRemoveFailedOperation.mutate "0" w)) !! KeyDetail "0" = None.
Proof.
  intros w.
  destruct (X13_remove_is_client_side "0" w) as (_ & _ & _ & _ & Hgone & Hother & _).
  split; [| exact Hgone].
  rewrite (Hother (KeyDetail "1")) by discriminate. reflexivity.
Defined.

Lemma crawlUrl_server (request : CrawlRequest.t) (w : World) :
  clock (knowledgeService.crawlUrl request w).2 = clock w ∧
  registry (knowledgeService.crawlUrl request w).2 =
    if accepts w request
    then (Registry.create (clock w) Registry.IngestionCrawl
            (knowledgeService.snapshot request) (registry w)).2
    else registry w.
Proof.
  unfold knowledgeService.crawlUrl. destruct (accepts w request); [| by split].
  by destruct (Registry.create _ _ _ _).
Qed.

Lemma mutationFn_server (failedOp : FailedOperation) (w : World) :
  clock (useRetryKnowledgeSource.mutationFn failedOp w).2 = clock w ∧
  (registry (useRetryKnowledgeSource.mutationFn failedOp w).2 = registry w ∨
   ∃ request,
     registry (useRetryKnowledgeSource.mutationFn failedOp w).2 =
       (Registry.create (clock w) Registry.IngestionCrawl
          (knowledgeService.snapshot request) (registry w)).2).
Proof.
  destruct (request_missing_dec failedOp) as [Hmiss | (original & Ho & Hurl)].
  - rewrite (mutationFn_missing _ w Hmiss). split; [reflexivity | by left].
  - rewrite (mutationFn_present _ original w Ho Hurl).
    destruct (crawlUrl_server (retry_request original) w) as [-> ->].
    split; [reflexivity |].
    destruct (accepts w (retry_request original)); [right; by eexists | by left].
Qed.

Lemma execute_server (w : World) (c : FailedOperationsSection.Command) :
  clock (execute w c) = clock w ∧
  Registry.issued (registry w) ≤ Registry.issued (registry (execute w c)) ∧
  (∀ n t, n < Registry.issued (registry w) → clock w ≤ t →
          Registry.get t (Registry.fresh_id n) (registry (execute w c)) =
          Registry.get t (Registry.fresh_id n) (registry w)).
Proof.
  destruct c as [failedOp | progressId]; cbn [execute]; [| by repeat split].
  destruct (mutate_keeps_wire failedOp w) as (_ & -> & ->).
  destruct (mutationFn_server failedOp w) as [-> [-> | [request ->]]];
    [by repeat split |].
  split; [reflexivity |]. split; [unfold Registry.create; cbn; lia |].
  intros n t Hn Ht. apply create_frame; [| exact Ht].
  unfold Registry.create. cbn. intros Heq%fresh_id_inj. lia.
Qed.

Lemma execute_wire (w : World) (c : FailedOperationsSection.Command) :
  ∃ extra, sent (execute w c) = sent w ++ extra ∧
           Forall (λ call, ∃ request, call = PostCrawl request) extra.
Proof.
  destruct c as [failedOp | progressId]; cbn [execute].
  - destruct (mutate_keeps_wire failedOp w) as (-> & _).
    destruct (request_missing_dec failedOp) as [Hmiss | (original & Ho & Hurl)].
    + rewrite (mutationFn_missing _ w Hmiss). exists []. cbn.
      by rewrite app_nil_r.
    + rewrite (mutationFn_present _ original w Ho Hurl), sent_crawlUrl.
      eexists. split; [reflexivity |]. constructor; [by eexists | constructor].
  - exists []. cbn. by rewrite app_nil_r.
Qed.

(** X14: whatever commands the view issues, retries and removals in any
    number and order, neither hook asks the server to take anything away:
    no request the hooks put on the wire is a removal, and every operation
    the registry has ever issued an id for is answered by [get], at every
    later time, exactly as it would have been without the commands.  In
    particular a removal confirmed in the view leaves the failed operation
    on the server until its retention window ends. *)
Theorem X14_sessions_never_delete_on_server
    (cmds : list FailedOperationsSection.Command) (w : World) :
  let w' := foldl execute w cmds in
  (∃ extra, sent w' = sent w ++ extra ∧
            ∀ i, DeleteOperation i ∉ extra) ∧
  (∀ n t, n < Registry.issued (registry w) → clock w ≤ t →
          Registry.get t (Registry.fresh_id n) (registry w') =
          Registry.get t (Registry.fresh_id n) (registry w)).
Proof.
  cbv zeta.
  assert (clock (foldl execute w cmds) = clock w ∧
          (∃ extra, sent (foldl execute w cmds) = sent w ++ extra ∧
                    Forall (λ call, ∃ request, call = PostCrawl request) extra) ∧
          (∀ n t, n < Registry.issued (registry w) → clock w ≤ t →
                  Registry.get t (Registry.fresh_id n) (registry (foldl execute w cmds)) =
                  Registry.get t (Registry.fresh_id n) (registry w))) as Hall.
  { revert w. induction cmds as [| c cmds IH]; intros w; cbn [foldl].
    - split; [reflexivity |]. split; [| done].
      exists []. by rewrite app_nil_r.
    - destruct (IH (execute w c)) as (Hclock & (extra2 & Hsent & Hall2) & Hget).
      destruct (execute_server w c) as (Hc & Hissued & Hg).
      destruct (execute_wire w c) as (extra1 & Hs1 & Hall1).
      split; [by rewrite Hclock |]. split.
      + exists (extra1 ++ extra2). rewrite Hsent, Hs1, app_assoc.
        split; [reflexivity | by apply Forall_app].
      + intros n t Hn Ht. rewrite Hget by (rewrite ?Hc; lia). by apply Hg. }
  destruct Hall as (_ & (extra & Hsent & Hcalls) & Hget).
  split; [| exact Hget].
  exists extra. split; [exact Hsent |].
  intros i Hin. rewrite Forall_forall in Hcalls.
  destruct (Hcalls _ Hin) as [request Hreq]. discriminate Hreq.
Qed.

Lemma X14_witness :
  let cmds := [FailedOperationsSection.RemoveMutate "0";
               FailedOperationsSection.RetryMutate scenario_failedOp;
               FailedOperationsSection.RemoveMutate "0"] in
  let w := world_of scenario_registry 20 in
  Registry.get 100 "0" (registry (foldl execute w cmds)) =
    Registry.get 100 "0" scenario_registry ∧
  ∃ old, Registry.get 100 "0" scenario_registry = Registry.Ok old.
Proof.
  intros cmds w.
  destruct (X14_sessions_never_delete_on_server cmds w) as (_ & Hget).
  split.
  - apply (Hget 0 100); vm_compute; lia.
  - eexists. vm_compute. reflexivity.
Defined.

(** ** The paths of the progress service *)

(** X16: [getProgress] asks for a different path for each id, since the
    id is appended unencoded to a fixed prefix; its path is the one of the
    active list exactly for the empty id and the one of the failed list
    exactly for the id "?include_failed=true", and the failed list's path
    is the active list's with the query appended. *)
Theorem X16_progress_paths (a b : string) :
  (getProgress_path a = getProgress_path b ↔ a = b) ∧
  (getProgress_path a = listActiveOperations_path ↔ a = "") ∧
  (getProgress_path a = listFailedOperations_path ↔ a = "?include_failed=true") ∧
  listFailedOperations_path = listActiveOperations_path +:+ "?include_failed=true".
Proof.
  unfold getProgress_path, listActiveOperations_path, listFailedOperations_path.
  cbn. split; [| split; [| split]].
  - split; [by intros [= H] | by intros ->].
  - split; [by intros [= H] | by intros ->].
  - split; [by intros [= H] | by intros ->].
  - reflexivity.
Qed.

(** ** What the view hands to the hooks *)

(** On the server side of scenario A the failed list holds the operation
    while its window runs and is empty once it has ended, with no call in
    between. *)
Lemma scenario_failure_expires :
  Registry.id <$> Registry.list_failed 309 scenario_registry = ["0"] ∧
  Registry.list_failed 310 scenario_registry = [].
Proof. split; vm_compute; reflexivity. Qed.

Lemma session_hands_over (P : FailedOperation → Prop) (es : list Observer.Event) :
  ∀ (o o' : Observer.t) (out : list FailedOperationsSection.Command),
    Observer.session o es = (o', out) →
    Observer.on_cards o es →
    (∀ shown_data op,
       useFailedOperations.data (Observer.query o) = Some shown_data →
       op ∈ operations shown_data → P op) →
    (∀ op, FailedOperationsSection.confirmRemove (Observer.local o) = Some op → P op) →
    (∀ response op,
       Observer.Polled (Resolved response) ∈ es →
       op ∈ operations (progressService.failedOperationsOf response) → P op) →
    (∀ op, FailedOperationsSection.RetryMutate op ∈ out → P op) ∧
    (∀ p, FailedOperationsSection.RemoveMutate p ∈ out →
          ∃ op, P op ∧ Op.progressId op = p).
Proof.
  induction es as [| e es IH]; intros o o' out; cbn [Observer.session Observer.on_cards].
  - intros [= <- <-] _ _ _ _. split; intros x Hin; by apply not_elem_of_nil in Hin.
  - destruct (Observer.step o e) as [o1 out1] eqn:Hstep.
    destruct (Observer.session o1 es) as [o2 out2] eqn:Hs.
    intros [= <- <-] [Hcard Hcards] Hdata Hmodal Hpolls. cbn [fst] in Hcards.
    assert ((∀ op, FailedOperationsSection.RetryMutate op ∈ out1 → P op) ∧
            (∀ p, FailedOperationsSection.RemoveMutate p ∈ out1 →
                  ∃ op, P op ∧ Op.progressId op = p) ∧
            (∀ shown_data op,
               useFailedOperations.data (Observer.query o1) = Some shown_data →
               op ∈ operations shown_data → P op) ∧
            (∀ op, FailedOperationsSection.confirmRemove (Observer.local o1) = Some op →
                   P op)) as (Hr1 & Hm1 & Hdata1 & Hmodal1).
    { destruct e as [[response | reason] | b c]; cbn in Hstep.
      - injection Hstep as <- <-. cbn.
        split; [intros x Hin; by apply not_elem_of_nil in Hin |].
        split; [intros x Hin; by apply not_elem_of_nil in Hin |].
        split; [| exact Hmodal].
        intros shown_data op [= <-] Hin. apply (Hpolls response); [by left | exact Hin].
      - injection Hstep as <- <-. cbn.
        split; [intros x Hin; by apply not_elem_of_nil in Hin |].
        split; [intros x Hin; by apply not_elem_of_nil in Hin |].
        by split.
      - destruct (FailedOperationsSection.handle b (Observer.local o) c)
          as [st out0] eqn:Hh.
        injection Hstep as <- <-. cbn [Observer.query Observer.local].
        split; [| split; [| split; [exact Hdata |]]].
        + intros op Hin. destruct (handle_retry_inv _ _ _ _ _ _ Hh Hin) as [-> ->].
          destruct Hcard as (_ & shown_data & Hd & Hop). by eapply Hdata.
        + intros p Hin.
          destruct (handle_remove_inv _ _ _ _ _ _ Hh Hin) as (-> & op & Hc & Hp).
          exists op. split; [by apply Hmodal | exact Hp].
        + intros op Hc.
          destruct (handle_confirmRemove_inv _ _ _ _ _ _ Hh Hc) as [-> | (Hc0 & _)].
          * destruct Hcard as (_ & shown_data & Hd & Hop). by eapply Hdata.
          * by apply Hmodal. }
    destruct (IH _ _ _ Hs Hcards Hdata1 Hmodal1) as [Hr2 Hm2].
    { intros response op Hin. apply Hpolls. by right. }
    split.
    + intros op [Hin | Hin]%elem_of_app; [by apply Hr1 | by apply Hr2].
    + intros p [Hin | Hin]%elem_of_app; [by apply Hm1 | by apply Hm2].
Qed.

(** X17: in a session in which every click on a card's button is made on
    a card that is on screen at that moment, every operation handed to the
    retry hook is an error/failed operation of an answer some poll of the
    session resolved to, and every id handed to the removal hook is the id
    of such an operation: the hooks never receive an operation the filter
    of [listFailedOperations] has not passed. *)
Theorem X17_hooks_receive_filtered_operations (es : list Observer.Event)
    (o' : Observer.t) (out : list FailedOperationsSection.Command) :
  Observer.session Observer.initial es = (o', out) →
  Observer.on_cards Observer.initial es →
  (∀ op, FailedOperationsSection.RetryMutate op ∈ out →
     failure_class (Op.status op) ∧
     ∃ response, Observer.Polled (Resolved response) ∈ es ∧ op ∈ operations response) ∧
  (∀ p, FailedOperationsSection.RemoveMutate p ∈ out →
     ∃ op, Op.progressId op = p ∧ failure_class (Op.status op) ∧
           ∃ response, Observer.Polled (Resolved response) ∈ es ∧
                       op ∈ operations response).
Proof.
  intros Hs Hcards.
  destruct (session_hands_over
              (λ op, failure_class (Op.status op) ∧
                     ∃ response, Observer.Polled (Resolved response) ∈ es ∧
                                 op ∈ operations response)
              es _ _ _ Hs Hcards) as [Hretry Hremove].
  - intros shown_data op Hd. discriminate Hd.
  - intros op Hc. discriminate Hc.
  - intros response op Hpoll [Hin Hf]%elem_of_failedOperationsOf.
    split; [exact Hf |]. by exists response.
  - split; [exact Hretry |].
    intros p Hin. destruct (Hremove p Hin) as (op & (Hf & Hresp) & Hp).
    by exists op.
Qed.

Lemma X17_witness :
  let failed := Op.mk "p" "failed" None None "boom" None None
                  (Some scenario_request) in
  let running := Op.mk "q" "processing" None None "" None None None in
  let es := [Observer.Polled (Resolved (mkResponse [running; failed] 2 "t0"));
             Observer.Clicked false (FailedOperationsSection.ClickRetry failed)] in
  (Observer.session Observer.initial es).2 = [FailedOperationsSection.RetryMutate failed] ∧
  failure_class (Op.status failed).
Proof.
  intros failed running es. split; [reflexivity |].
  refine (proj1 (proj1 (X17_hooks_receive_filtered_operations es _ _ eq_refl _) failed _)).
  - cbn. split; [exact I |]. split; [| exact I].
    split; [reflexivity |]. eexists. split; [reflexivity |]. by left.
  - by left.
Defined.
